(** * The CSS selector builder of [src/05-objects-tasks.js]

    A shallow embedding of the constructor [CssSelector] and of the facade
    [cssSelectorBuilder], followed by the properties of the builder.

    - A JavaScript string is a sequence of UTF-16 code units.
    - A [CssSelector] object is a record of its nine data fields; the
      closures the constructor installs ([element], [id], ...) become
      computations over that record, in a state-and-exception monad: a
      [throw] leaves behind whatever the method had already written.
    - Objects live in a store and are passed around by reference, so that
      [left.combine(right, op)] is a call on two store locations.
    - Argument values are strings, as the data model of the builder has
      them. *)

From Stdlib Require Import ZArith NArith String Ascii Sorted.
From stdpp Require Import base option list.

Local Open Scope Z_scope.

(** ** JavaScript strings *)

Module JsString.

(** One UTF-16 code unit. *)
Abbreviation code_unit := N (only parsing).
Abbreviation jsstring := (list N) (only parsing).

(** A literal of the source, character by character. *)
Definition lit (s : string) : jsstring :=
  N_of_ascii <$> list_ascii_of_string s.

(** The empty literal of the source. *)
Definition empty : jsstring := [].

(** [WhiteSpace] and [LineTerminator] of ECMAScript: what
    [String.prototype.trim] strips. *)
Definition is_white_space (c : code_unit) : bool :=
  ((9 <=? c) && (c <=? 13)               (* TAB LF VT FF CR *)
   || (c =? 32) || (c =? 160)            (* SP NBSP *)
   || (c =? 5760)                        (* U+1680 *)
   || ((8192 <=? c) && (c <=? 8202))     (* U+2000 .. U+200A *)
   || (c =? 8232) || (c =? 8233)         (* LS PS *)
   || (c =? 8239) || (c =? 8287)         (* U+202F U+205F *)
   || (c =? 12288) || (c =? 65279))%N.   (* U+3000 BOM *)

Fixpoint trimStart (s : jsstring) : jsstring :=
  match s with
  | c :: s' => if is_white_space c then trimStart s' else s
  | [] => []
  end.

Definition trimEnd (s : jsstring) : jsstring :=
  reverse (trimStart (reverse s)).

(** [s.trim()] *)
Definition trim (s : jsstring) : jsstring := trimEnd (trimStart s).

(** [a.concat(b)], and the juxtaposition inside a template literal. *)
Definition concat (a b : jsstring) : jsstring := a ++ b.

(** [a !== b] on two strings. *)
Definition strict_neq (a b : jsstring) : bool :=
  bool_decide (a ≠ b).

End JsString.
Import JsString.

(** ** Exceptions and the state-and-exception monad *)

(** [Error(message)]: the only kind of exception the builder throws. *)
Inductive exn : Type := Error (message : jsstring).

Definition message (e : exn) : jsstring :=
  match e with Error m => m end.

Inductive result (A : Type) : Type :=
| Return (a : A)
| Throw (e : exn).
Arguments Return {A} a.
Arguments Throw {A} e.

Section StateExn.
Context {S : Type}.

(** A computation over a state [S]: its outcome and the state it leaves. *)
Definition SE (A : Type) : Type := S → result A * S.

Definition ret {A} (a : A) : SE A := λ s, (Return a, s).

Definition bind {A B} (m : SE A) (k : A → SE B) : SE B :=
  λ s, match m s with
       | (Return a, s') => k a s'
       | (Throw e, s') => (Throw e, s')
       end.

Definition throw {A} (e : exn) : SE A := λ s, (Throw e, s).

Definition gets {A} (f : S → A) : SE A := λ s, (Return (f s), s).

Definition modify (f : S → S) : SE unit := λ s, (Return tt, f s).
End StateExn.
Arguments SE : clear implicits.

Declare Scope se_scope.
Delimit Scope se_scope with se.
Notation "x <- m ;; k" := (bind m (λ x, k))
  (at level 100, m at next level, right associativity) : se_scope.
Notation "m ;; k" := (bind m (λ _, k))
  (at level 100, right associativity) : se_scope.

(** ** The object *)

(** The data fields [new CssSelector()] creates. *)
Record CssSelector : Type := mkCssSelector {
  elementValue : jsstring;
  idValue : jsstring;
  classes : jsstring;
  attrs : jsstring;
  pseudoClasses : jsstring;
  pseudoElementValue : jsstring;
  combinator : jsstring;
  supSelector : jsstring;
  order : list Z
}.

Definition set_elementValue (v : jsstring) (o : CssSelector) : CssSelector :=
  mkCssSelector v (idValue o) (classes o) (attrs o) (pseudoClasses o)
    (pseudoElementValue o) (combinator o) (supSelector o) (order o).
Definition set_idValue (v : jsstring) (o : CssSelector) : CssSelector :=
  mkCssSelector (elementValue o) v (classes o) (attrs o) (pseudoClasses o)
    (pseudoElementValue o) (combinator o) (supSelector o) (order o).
Definition set_classes (v : jsstring) (o : CssSelector) : CssSelector :=
  mkCssSelector (elementValue o) (idValue o) v (attrs o) (pseudoClasses o)
    (pseudoElementValue o) (combinator o) (supSelector o) (order o).
Definition set_attrs (v : jsstring) (o : CssSelector) : CssSelector :=
  mkCssSelector (elementValue o) (idValue o) (classes o) v (pseudoClasses o)
    (pseudoElementValue o) (combinator o) (supSelector o) (order o).
Definition set_pseudoClasses (v : jsstring) (o : CssSelector) : CssSelector :=
  mkCssSelector (elementValue o) (idValue o) (classes o) (attrs o) v
    (pseudoElementValue o) (combinator o) (supSelector o) (order o).
Definition set_pseudoElementValue (v : jsstring) (o : CssSelector)
  : CssSelector :=
  mkCssSelector (elementValue o) (idValue o) (classes o) (attrs o)
    (pseudoClasses o) v (combinator o) (supSelector o) (order o).
Definition set_combinator (v : jsstring) (o : CssSelector) : CssSelector :=
  mkCssSelector (elementValue o) (idValue o) (classes o) (attrs o)
    (pseudoClasses o) (pseudoElementValue o) v (supSelector o) (order o).
Definition set_supSelector (v : jsstring) (o : CssSelector) : CssSelector :=
  mkCssSelector (elementValue o) (idValue o) (classes o) (attrs o)
    (pseudoClasses o) (pseudoElementValue o) (combinator o) v (order o).
Definition set_order (v : list Z) (o : CssSelector) : CssSelector :=
  mkCssSelector (elementValue o) (idValue o) (classes o) (attrs o)
    (pseudoClasses o) (pseudoElementValue o) (combinator o) (supSelector o) v.

(** [Array.prototype.indexOf]: the first index holding [x], or [-1]. *)
Fixpoint indexOf_from (i : Z) (x : Z) (l : list Z) : Z :=
  match l with
  | [] => -1
  | y :: l' => if y =? x then i else indexOf_from (i + 1) x l'
  end.

Definition indexOf (x : Z) (l : list Z) : Z := indexOf_from 0 x l.

(** The bodies of the closures, each a computation over [this]. *)
Module Body.
Local Open Scope se_scope.

Abbreviation M := (SE CssSelector).

Definition duplicate_message : jsstring :=
  lit "Element, id and pseudo-element should not occur more then one time inside the selector".

Definition order_message : jsstring :=
  lit "Selector parts should be arranged in the following order: element, id, class, attribute, pseudo-class, pseudo-element".

Definition throwException : M unit :=
  throw (Error duplicate_message).

Definition assertEmpty (value : jsstring) : M unit :=
  if strict_neq value (empty) then throwException else ret tt.

Definition checkOrder (value : nat) : M unit :=
  first <- gets (λ this, indexOf 1 (order this)) ;;
  if negb (first =? -1) && (first >? Z.of_nat value)
  then throw (Error order_message)
  else modify (λ this, set_order (<[value := 1]> (order this)) this).

Definition element (value : jsstring) : M unit :=
  (v <- gets elementValue ;; assertEmpty v) ;;
  checkOrder 0 ;;
  modify (set_elementValue value).

Definition id (value : jsstring) : M unit :=
  (v <- gets idValue ;; assertEmpty v) ;;
  checkOrder 1 ;;
  modify (set_idValue (concat (lit "#") value)).

Definition class (value : jsstring) : M unit :=
  checkOrder 2 ;;
  modify (λ this,
    set_classes (concat (concat (classes this) (lit ".")) value) this).

Definition attr (value : jsstring) : M unit :=
  checkOrder 3 ;;
  modify (λ this,
    set_attrs
      (concat (concat (concat (attrs this) (lit "[")) value) (lit "]"))
      this).

Definition pseudoClass (value : jsstring) : M unit :=
  checkOrder 4 ;;
  modify (λ this,
    set_pseudoClasses
      (concat (concat (pseudoClasses this) (lit ":")) value) this).

Definition pseudoElement (value : jsstring) : M unit :=
  checkOrder 5 ;;
  (v <- gets pseudoElementValue ;; assertEmpty v) ;;
  modify (λ this,
    set_pseudoElementValue
      (concat (concat (pseudoElementValue this) (lit "::")) value) this).

(** [stringify] only reads [this]. *)
Definition stringify_text (this : CssSelector) : jsstring :=
  let result :=
    concat (concat (concat (concat (concat (concat
      (elementValue this) (idValue this)) (classes this)) (attrs this))
      (pseudoClasses this)) (pseudoElementValue this)) (lit " ") in
  let result :=
    if strict_neq (combinator this) (empty)
       && strict_neq (supSelector this) (empty)
    then concat (concat result (concat (combinator this) (lit " ")))
           (supSelector this)
    else result in
  trim result.

Definition stringify : M jsstring := gets stringify_text.

(** The two assignments of [combine], once [selector.stringify()] has
    been evaluated to [text]. *)
Definition combine_with (text combinator : jsstring) : M unit :=
  modify (set_supSelector text) ;;
  modify (set_combinator combinator).
End Body.

(** [new CssSelector()]: the initial field values. *)
Definition fresh : CssSelector :=
  {| elementValue := empty;
     idValue := empty;
     classes := empty;
     attrs := empty;
     pseudoClasses := empty;
     pseudoElementValue := empty;
     combinator := empty;
     supSelector := empty;
     order := replicate 6 0 |}.

(** ** The store *)

(** A reference to a [CssSelector] object. *)
Abbreviation loc := nat (only parsing).
Abbreviation heap := (list CssSelector) (only parsing).

(** A computation over the store; [None] only for a reference to no
    object, which no caller can hold. *)
Definition H (A : Type) : Type := heap → option (result A * heap).

Definition hret {A} (a : A) : H A := λ h, Some (Return a, h).

Definition hbind {A B} (m : H A) (k : A → H B) : H B :=
  λ h, match m h with
       | Some (Return a, h') => k a h'
       | Some (Throw e, h') => Some (Throw e, h')
       | None => None
       end.

Declare Scope heap_scope.
Delimit Scope heap_scope with heap.
Notation "x <- m ;; k" := (hbind m (λ x, k))
  (at level 100, m at next level, right associativity) : heap_scope.
Notation "m ;; k" := (hbind m (λ _, k))
  (at level 100, right associativity) : heap_scope.

(** [new CssSelector()] *)
Definition new : H loc := λ h, Some (Return (length h), h ++ [fresh]).

(** Running a closure body on the object [this] refers to. *)
Definition call {A} (this : loc) (m : Body.M A) : H A :=
  λ h, match h !! this with
       | Some o => let '(r, o') := m o in Some (r, <[this := o']> h)
       | None => None
       end.

(** The methods of an object, [return this] included. *)
Module Obj.
Local Open Scope heap_scope.

Definition element (this : loc) (value : jsstring) : H loc :=
  call this (Body.element value) ;; hret this.

Definition id (this : loc) (value : jsstring) : H loc :=
  call this (Body.id value) ;; hret this.

Definition class (this : loc) (value : jsstring) : H loc :=
  call this (Body.class value) ;; hret this.

Definition attr (this : loc) (value : jsstring) : H loc :=
  call this (Body.attr value) ;; hret this.

Definition pseudoClass (this : loc) (value : jsstring) : H loc :=
  call this (Body.pseudoClass value) ;; hret this.

Definition pseudoElement (this : loc) (value : jsstring) : H loc :=
  call this (Body.pseudoElement value) ;; hret this.

Definition combine (this selector : loc) (combinator : jsstring) : H loc :=
  text <- call selector Body.stringify ;;
  call this (Body.combine_with text combinator) ;;
  hret this.

Definition stringify (this : loc) : H jsstring :=
  call this Body.stringify.
End Obj.

(** The facade. *)
Module cssSelectorBuilder.
Local Open Scope heap_scope.

Definition element (value : jsstring) : H loc :=
  this <- new ;; Obj.element this value.

Definition id (value : jsstring) : H loc :=
  this <- new ;; Obj.id this value.

Definition class (value : jsstring) : H loc :=
  this <- new ;; Obj.class this value.

Definition attr (value : jsstring) : H loc :=
  this <- new ;; Obj.attr this value.

Definition pseudoClass (value : jsstring) : H loc :=
  this <- new ;; Obj.pseudoClass this value.

Definition pseudoElement (value : jsstring) : H loc :=
  this <- new ;; Obj.pseudoElement this value.

Definition combine (selector1 : loc) (combinator : jsstring)
    (selector2 : loc) : H loc :=
  Obj.combine selector1 selector2 combinator.
End cssSelectorBuilder.

(** ** Fragment kinds and call sequences *)

Inductive fragment : Type :=
| Element | Id | Class | Attr | PseudoClass | PseudoElement.

(** The constant each fragment method hands to [checkOrder]. *)
Definition rank (k : fragment) : nat :=
  match k with
  | Element => 0 | Id => 1 | Class => 2
  | Attr => 3 | PseudoClass => 4 | PseudoElement => 5
  end.

Definition body (k : fragment) : jsstring → Body.M unit :=
  match k with
  | Element => Body.element | Id => Body.id | Class => Body.class
  | Attr => Body.attr | PseudoClass => Body.pseudoClass
  | PseudoElement => Body.pseudoElement
  end.

Definition append (k : fragment) : loc → jsstring → H loc :=
  match k with
  | Element => Obj.element | Id => Obj.id | Class => Obj.class
  | Attr => Obj.attr | PseudoClass => Obj.pseudoClass
  | PseudoElement => Obj.pseudoElement
  end.

(** One call of a client of the builder. *)
Inductive action : Type :=
| New
| Append (this : loc) (k : fragment) (value : jsstring)
| Combine (this selector : loc) (combinator : jsstring)
| Stringify (this : loc).

(** The store a call leaves, whether it returned or threw (a client may
    catch the exception and go on). *)
Definition step (a : action) (h : heap) : option heap :=
  match a with
  | New => snd <$> new h
  | Append this k value => snd <$> append k this value h
  | Combine this selector combinator =>
      snd <$> Obj.combine this selector combinator h
  | Stringify this => snd <$> Obj.stringify this h
  end.

Fixpoint run (acts : list action) (h : heap) : option heap :=
  match acts with
  | [] => Some h
  | a :: acts' =>
      match step a h with
      | Some h' => run acts' h'
      | None => None
      end
  end.

(** A method chain [b.m1(v1).m2(v2)...]: each call is made on what the
    one before returned, and a throw ends the chain. *)
Fixpoint chain (this : loc) (calls : list (fragment * jsstring)) : H loc :=
  match calls with
  | [] => hret this
  | (k, value) :: calls' =>
      hbind (append k this value) (λ this', chain this' calls')
  end.

(** The stores a program can build, starting with no object at all. *)
Definition reachable (h : heap) : Prop := ∃ acts, run acts [] = Some h.

(** The double quote, for the literals that contain one. *)
Definition dquote : jsstring := [34%N].

(** ** Vocabulary of the properties *)

(** Rank [r] has been appended to [o]: [checkOrder r] has gone through
    and written [order[r] = 1]. *)
Definition appended (o : CssSelector) (r : nat) : Prop :=
  order o !! r = Some 1.

(** The test of [checkOrder]: [first !== -1 && first > value]. *)
Definition order_violated (value : nat) (o : CssSelector) : bool :=
  negb (indexOf 1 (order o) =? -1)
  && (indexOf 1 (order o) >? Z.of_nat value).

(** [checkOrder]'s write, [this.order[value] = 1]. *)
Definition record_rank (value : nat) (o : CssSelector) : CssSelector :=
  set_order (<[value := 1]> (order o)) o.

(** The field the method of kind [k] assigns, and the text its template
    literal puts there for the argument [v]. *)
Definition field (k : fragment) : CssSelector → jsstring :=
  match k with
  | Element => elementValue | Id => idValue | Class => classes
  | Attr => attrs | PseudoClass => pseudoClasses
  | PseudoElement => pseudoElementValue
  end.

Definition render (k : fragment) (v : jsstring) : jsstring :=
  match k with
  | Element => v
  | Id => lit "#" ++ v
  | Class => lit "." ++ v
  | Attr => lit "[" ++ v ++ lit "]"
  | PseudoClass => lit ":" ++ v
  | PseudoElement => lit "::" ++ v
  end.

(** The texts of successive arguments, in call order. *)
Fixpoint rendered (k : fragment) (vs : list jsstring) : jsstring :=
  match vs with
  | [] => empty
  | v :: vs' => render k v ++ rendered k vs'
  end.

(** The kinds whose methods have no [assertEmpty]. *)
Definition repeatable (k : fragment) : bool :=
  match k with
  | Class | Attr | PseudoClass => true
  | Element | Id | PseudoElement => false
  end.

(** The field that [assertEmpty] guards in the method of kind [k]. *)
Definition unique_field (k : fragment) : option (CssSelector → jsstring) :=
  match k with
  | Element => Some elementValue
  | Id => Some idValue
  | PseudoElement => Some pseudoElementValue
  | Class | Attr | PseudoClass => None
  end.

(** What every object of a reachable store satisfies: [order] keeps its
    six cells, and a stored pseudo-element has its rank recorded. *)
Definition wf (o : CssSelector) : Prop :=
  length (order o) = 6%nat ∧
  (pseudoElementValue o ≠ empty → appended o 5).

(** The fields a combination writes are both unset or both set. *)
Definition link_consistent (o : CssSelector) : Prop :=
  (combinator o = empty ∧ supSelector o = empty) ∨
  (combinator o ≠ empty ∧ supSelector o ≠ empty).

(** A [combine] call gets a non-empty combinator and a right operand that
    renders to a non-empty text. *)
Definition combine_nonempty (a : action) (h : heap) : bool :=
  match a with
  | Combine _ selector combinator =>
      strict_neq combinator empty
      && match h !! selector with
         | Some o => strict_neq (Body.stringify_text o) empty
         | None => false
         end
  | _ => true
  end.

Fixpoint combines_nonempty (acts : list action) (h : heap) : bool :=
  match acts with
  | [] => true
  | a :: acts' =>
      combine_nonempty a h
      && match step a h with
         | Some h' => combines_nonempty acts' h'
         | None => true
         end
  end.

(** The object a call writes to, if any. *)
Definition writes (a : action) : option loc :=
  match a with
  | New | Stringify _ => None
  | Append this _ _ | Combine this _ _ => Some this
  end.

(** The message of the duplicate error as the specification words it. *)
Definition spec_duplicate_message : jsstring :=
  lit "Element, id and pseudo-element should not occur more than one time inside the selector".

Definition spec_order_message : jsstring :=
  lit "Selector parts should be arranged in the following order: element, id, class, attribute, pseudo-class, pseudo-element".

(** The facade as the specification words it: each entry point is the
    instance method on a builder just created, and [combine(left, op,
    right)] is [left.combine(right, op)]. *)
Module FacadeSpec.
Local Open Scope heap_scope.

Definition on_new_builder (method : loc → jsstring → H loc)
    (v : jsstring) : H loc :=
  b <- new ;; method b v.

Definition entry (k : fragment) : jsstring → H loc :=
  on_new_builder (append k).

Definition combine (left : loc) (op : jsstring) (right : loc) : H loc :=
  Obj.combine left right op.
End FacadeSpec.

(** The facade entry point of each kind, from the source. *)
Definition facade (k : fragment) : jsstring → H loc :=
  match k with
  | Element => cssSelectorBuilder.element
  | Id => cssSelectorBuilder.id
  | Class => cssSelectorBuilder.class
  | Attr => cssSelectorBuilder.attr
  | PseudoClass => cssSelectorBuilder.pseudoClass
  | PseudoElement => cssSelectorBuilder.pseudoElement
  end.

(** ** Vocabulary of the further properties *)

(** The six fragment fields in the order [stringify] concatenates them. *)
Definition fragments (o : CssSelector) : jsstring :=
  elementValue o ++ idValue o ++ classes o ++ attrs o
    ++ pseudoClasses o ++ pseudoElementValue o.

Definition same_kind (k k' : fragment) : bool := (rank k =? rank k')%nat.

(** The arguments of the calls of kind [k] in a chain, in call order. *)
Fixpoint values_of (k : fragment) (cs : list (fragment * jsstring))
  : list jsstring :=
  match cs with
  | [] => []
  | (k', v) :: cs' =>
      if same_kind k' k then v :: values_of k cs' else values_of k cs'
  end.

(** After the calls [seen] have returned, a call of kind [k] passes the
    order test: nothing was called yet, or some earlier call has a rank
    that is not above the rank of [k]. *)
Definition order_ok (seen : list (fragment * jsstring)) (k : fragment)
  : bool :=
  match seen with
  | [] => true
  | _ => existsb (λ c, (rank c.1 <=? rank k)%nat) seen
  end.

(** After the calls [seen] have returned, a call of kind [k] passes
    [assertEmpty]: every earlier [element] had the argument [''], and no
    earlier [id], resp. [pseudoElement], was made. *)
Definition unique_ok (seen : list (fragment * jsstring)) (k : fragment)
  : bool :=
  match k with
  | Element =>
      forallb (λ v, negb (strict_neq v empty)) (values_of Element seen)
  | Id | PseudoElement =>
      match values_of k seen with [] => true | _ :: _ => false end
  | Class | Attr | PseudoClass => true
  end.

Fixpoint accepts_after (seen cs : list (fragment * jsstring)) : bool :=
  match cs with
  | [] => true
  | c :: cs' =>
      unique_ok seen c.1 && order_ok seen c.1
      && accepts_after (seen ++ [c]) cs'
  end.

(** The chains of fragment calls a new builder goes through. *)
Definition accepts (cs : list (fragment * jsstring)) : bool :=
  accepts_after [] cs.

(** A computation ran to its [return]. *)
Definition returns {A} (x : option (result A * heap)) : bool :=
  match x with
  | Some (Return _, _) => true
  | _ => false
  end.

(** [order] as a record of the fields: six cells holding 0 or 1; a field
    that is not empty has its rank recorded, and but for [element], whose
    argument may be [''], a recorded rank has its field not empty. *)
Definition coherent (o : CssSelector) : Prop :=
  length (order o) = 6%nat ∧
  Forall (λ x, x = 0 ∨ x = 1) (order o) ∧
  ∀ k, (field k o ≠ empty → appended o (rank k)) ∧
       (k ≠ Element → appended o (rank k) → field k o ≠ empty).

(** The builder the calls [seen], all returned, make of a new one. *)
Definition built (seen : list (fragment * jsstring)) (o : CssSelector)
  : Prop :=
  length (order o) = 6%nat ∧
  (∀ r, appended o r ↔ ∃ c, c ∈ seen ∧ rank c.1 = r) ∧
  (∀ k, field k o = rendered k (values_of k seen)) ∧
  combinator o = empty ∧ supSelector o = empty.

(** ** Unfolding the calls *)

Lemma strict_neq_true (a b : jsstring) : strict_neq a b = true ↔ a ≠ b.
Proof. unfold strict_neq. apply bool_decide_eq_true. Qed.

Lemma strict_neq_false (a b : jsstring) : strict_neq a b = false ↔ a = b.
Proof.
  unfold strict_neq. rewrite bool_decide_eq_false.
  split; [apply dec_stable | intros -> Hne; by apply Hne].
Qed.

Lemma assertEmpty_eq (value : jsstring) (o : CssSelector) :
  Body.assertEmpty value o =
  if strict_neq value empty
  then (Throw (Error Body.duplicate_message), o)
  else (Return tt, o).
Proof.
  unfold Body.assertEmpty. destruct (strict_neq value empty); reflexivity.
Qed.

Lemma checkOrder_eq (value : nat) (o : CssSelector) :
  Body.checkOrder value o =
  if order_violated value o
  then (Throw (Error Body.order_message), o)
  else (Return tt, record_rank value o).
Proof.
  unfold Body.checkOrder, order_violated, bind, gets.
  destruct (negb _ && _); reflexivity.
Qed.

Lemma element_eq (v : jsstring) (o : CssSelector) :
  Body.element v o =
  if strict_neq (elementValue o) empty
  then (Throw (Error Body.duplicate_message), o)
  else if order_violated 0 o
  then (Throw (Error Body.order_message), o)
  else (Return tt, set_elementValue v (record_rank 0 o)).
Proof.
  unfold Body.element, bind at 1 2 3. unfold gets at 1.
  rewrite assertEmpty_eq.
  destruct (strict_neq (elementValue o) empty); [reflexivity|].
  unfold bind. rewrite checkOrder_eq.
  destruct (order_violated 0 o); reflexivity.
Qed.

Lemma id_eq (v : jsstring) (o : CssSelector) :
  Body.id v o =
  if strict_neq (idValue o) empty
  then (Throw (Error Body.duplicate_message), o)
  else if order_violated 1 o
  then (Throw (Error Body.order_message), o)
  else (Return tt, set_idValue (lit "#" ++ v) (record_rank 1 o)).
Proof.
  unfold Body.id, bind at 1 2 3. unfold gets at 1.
  rewrite assertEmpty_eq.
  destruct (strict_neq (idValue o) empty); [reflexivity|].
  unfold bind. rewrite checkOrder_eq.
  destruct (order_violated 1 o); reflexivity.
Qed.

Lemma class_eq (v : jsstring) (o : CssSelector) :
  Body.class v o =
  if order_violated 2 o
  then (Throw (Error Body.order_message), o)
  else (Return tt,
        set_classes (classes o ++ lit "." ++ v) (record_rank 2 o)).
Proof.
  unfold Body.class, bind. rewrite checkOrder_eq.
  destruct (order_violated 2 o); [reflexivity|].
  unfold modify, concat. simpl. by rewrite <- app_assoc.
Qed.

Lemma attr_eq (v : jsstring) (o : CssSelector) :
  Body.attr v o =
  if order_violated 3 o
  then (Throw (Error Body.order_message), o)
  else (Return tt,
        set_attrs (attrs o ++ lit "[" ++ v ++ lit "]") (record_rank 3 o)).
Proof.
  unfold Body.attr, bind. rewrite checkOrder_eq.
  destruct (order_violated 3 o); [reflexivity|].
  unfold modify, concat. simpl. by rewrite <- !app_assoc.
Qed.

Lemma pseudoClass_eq (v : jsstring) (o : CssSelector) :
  Body.pseudoClass v o =
  if order_violated 4 o
  then (Throw (Error Body.order_message), o)
  else (Return tt,
        set_pseudoClasses (pseudoClasses o ++ lit ":" ++ v)
          (record_rank 4 o)).
Proof.
  unfold Body.pseudoClass, bind. rewrite checkOrder_eq.
  destruct (order_violated 4 o); [reflexivity|].
  unfold modify, concat. simpl. by rewrite <- app_assoc.
Qed.

Lemma pseudoElement_eq (v : jsstring) (o : CssSelector) :
  Body.pseudoElement v o =
  if order_violated 5 o
  then (Throw (Error Body.order_message), o)
  else if strict_neq (pseudoElementValue o) empty
  then (Throw (Error Body.duplicate_message), record_rank 5 o)
  else (Return tt,
        set_pseudoElementValue (pseudoElementValue o ++ lit "::" ++ v)
          (record_rank 5 o)).
Proof.
  unfold Body.pseudoElement, bind at 1. rewrite checkOrder_eq.
  destruct (order_violated 5 o); [reflexivity|].
  unfold bind at 1 2. unfold gets at 1. rewrite assertEmpty_eq.
  change (pseudoElementValue (record_rank 5 o)) with (pseudoElementValue o).
  destruct (strict_neq (pseudoElementValue o) empty); [reflexivity|].
  unfold modify, concat. simpl. by rewrite <- app_assoc.
Qed.

(** Rewriting a fragment body into its decision tree. *)
Ltac body_norm :=
  simpl body in *;
  rewrite ?element_eq, ?id_eq, ?class_eq, ?attr_eq, ?pseudoClass_eq,
    ?pseudoElement_eq in *.

Ltac body_cases k := destruct k; body_norm.

Lemma call_eq {A} (this : loc) (m : Body.M A) (h : heap) :
  call this m h =
  (λ o, ((m o).1, <[this := (m o).2]> h)) <$> h !! this.
Proof.
  unfold call. destruct (h !! this) as [o|]; simpl; [|reflexivity].
  destruct (m o); reflexivity.
Qed.

Lemma append_eq (k : fragment) (this : loc) (v : jsstring) (h : heap) :
  append k this v h =
  (λ o, (match (body k v o).1 with
         | Return _ => Return this
         | Throw e => Throw e
         end, <[this := (body k v o).2]> h)) <$> h !! this.
Proof.
  destruct k; simpl;
    unfold Obj.element, Obj.id, Obj.class, Obj.attr, Obj.pseudoClass,
      Obj.pseudoElement, hbind, hret;
    rewrite call_eq; destruct (h !! this) as [o|]; simpl; try reflexivity;
    match goal with |- context [(?m o).1] => destruct (m o) as [[[]|e] o'] end;
    reflexivity.
Qed.

Lemma stringify_eq (this : loc) (h : heap) :
  Obj.stringify this h =
  (λ o, (Return (Body.stringify_text o), h)) <$> h !! this.
Proof.
  unfold Obj.stringify. rewrite call_eq.
  destruct (h !! this) as [o|] eqn:E; simpl; [|reflexivity].
  by rewrite list_insert_id.
Qed.

Lemma combine_eq (this selector : loc) (c : jsstring) (h : heap) :
  Obj.combine this selector c h =
  match h !! selector, h !! this with
  | Some ro, Some o =>
      Some (Return this,
            <[this := set_combinator c
                        (set_supSelector (Body.stringify_text ro) o)]> h)
  | _, _ => None
  end.
Proof.
  unfold Obj.combine, hbind. fold (Obj.stringify selector).
  rewrite stringify_eq.
  destruct (h !! selector) as [ro|]; simpl; [|reflexivity].
  rewrite call_eq. destruct (h !! this) as [o|]; reflexivity.
Qed.

Lemma step_New (h : heap) : step New h = Some (h ++ [fresh]).
Proof. reflexivity. Qed.

Lemma step_Append (this : loc) (k : fragment) (v : jsstring) (h : heap) :
  step (Append this k v) h =
  (λ o, <[this := (body k v o).2]> h) <$> h !! this.
Proof.
  unfold step. rewrite append_eq. by destruct (h !! this).
Qed.

Lemma step_Combine (this selector : loc) (c : jsstring) (h : heap) :
  step (Combine this selector c) h =
  match h !! selector, h !! this with
  | Some ro, Some o =>
      Some (<[this := set_combinator c
                        (set_supSelector (Body.stringify_text ro) o)]> h)
  | _, _ => None
  end.
Proof.
  unfold step. rewrite combine_eq.
  destruct (h !! selector), (h !! this); reflexivity.
Qed.

Lemma step_Stringify (this : loc) (h : heap) :
  step (Stringify this) h = (λ _, h) <$> h !! this.
Proof.
  unfold step. rewrite stringify_eq. by destruct (h !! this).
Qed.

(** ** Invariants of call sequences *)

Section Invariant.
Variable P : CssSelector → Prop.
Hypothesis P_body : ∀ k v o, P o → P (body k v o).2.
Hypothesis P_combine :
  ∀ t c o, P o → P (set_combinator c (set_supSelector t o)).

(** A property the methods keep stays true of an object, call after
    call, whichever objects the calls are made on. *)
Lemma step_stable (a : action) (h h' : heap) (r : loc) (o : CssSelector) :
  step a h = Some h' → h !! r = Some o → P o →
  ∃ o', h' !! r = Some o' ∧ P o'.
Proof.
  intros Hs Hr Po. pose proof (lookup_lt_Some _ _ _ Hr) as Hlt.
  destruct a as [|this k v|this sel c|this].
  - rewrite step_New in Hs. injection Hs as <-.
    exists o. by rewrite lookup_app_l.
  - rewrite step_Append in Hs.
    destruct (h !! this) as [o0|] eqn:E; simpl in Hs; [|done].
    injection Hs as <-. destruct (decide (this = r)) as [->|Hne].
    + rewrite list_lookup_insert_eq by done.
      assert (o0 = o) as -> by congruence. eauto.
    + rewrite list_lookup_insert_ne by done. eauto.
  - rewrite step_Combine in Hs.
    destruct (h !! sel) as [ro|]; [|done].
    destruct (h !! this) as [o0|] eqn:E; [|done].
    injection Hs as <-. destruct (decide (this = r)) as [->|Hne].
    + rewrite list_lookup_insert_eq by done.
      assert (o0 = o) as -> by congruence. eauto.
    + rewrite list_lookup_insert_ne by done. eauto.
  - rewrite step_Stringify in Hs.
    destruct (h !! this); simpl in Hs; [|done].
    injection Hs as <-. eauto.
Qed.

Lemma run_stable (acts : list action) (h h' : heap) (r : loc)
    (o : CssSelector) :
  run acts h = Some h' → h !! r = Some o → P o →
  ∃ o', h' !! r = Some o' ∧ P o'.
Proof.
  revert h o. induction acts as [|a acts IH]; intros h o Hrun Hr Po.
  - injection Hrun as <-. eauto.
  - simpl in Hrun. destruct (step a h) as [h1|] eqn:Hs; [|done].
    destruct (step_stable _ _ _ _ _ Hs Hr Po) as (o1 & Hr1 & Po1).
    eapply IH; eauto.
Qed.

Hypothesis P_fresh : P fresh.

Lemma step_Forall (a : action) (h h' : heap) :
  step a h = Some h' → Forall P h → Forall P h'.
Proof.
  intros Hs Hall. apply Forall_lookup. intros r o' Hr'.
  destruct (h !! r) as [o|] eqn:Hr.
  - destruct (step_stable _ _ _ _ _ Hs Hr) as (o1 & Hr1 & Po1).
    { eapply Forall_lookup_1; eauto. }
    congruence.
  - destruct a as [|this k v|this sel c|this].
    + rewrite step_New in Hs. injection Hs as <-.
      apply lookup_ge_None in Hr.
      rewrite lookup_app_r in Hr' by done.
      apply list_lookup_singleton_Some in Hr' as [_ <-]. done.
    + rewrite step_Append in Hs.
      destruct (h !! this); simpl in Hs; [|done]. injection Hs as <-.
      apply lookup_lt_Some in Hr'. rewrite length_insert in Hr'.
      apply lookup_ge_None in Hr. lia.
    + rewrite step_Combine in Hs.
      destruct (h !! sel); [|done]. destruct (h !! this); [|done].
      injection Hs as <-.
      apply lookup_lt_Some in Hr'. rewrite length_insert in Hr'.
      apply lookup_ge_None in Hr. lia.
    + rewrite step_Stringify in Hs.
      destruct (h !! this); simpl in Hs; [|done]. injection Hs as <-.
      congruence.
Qed.

Lemma run_Forall (acts : list action) (h h' : heap) :
  run acts h = Some h' → Forall P h → Forall P h'.
Proof.
  revert h. induction acts as [|a acts IH]; intros h Hrun Hall.
  - by injection Hrun as <-.
  - simpl in Hrun. destruct (step a h) as [h1|] eqn:Hs; [|done].
    eauto using step_Forall.
Qed.
End Invariant.

(** ** [indexOf] and the order test *)

Lemma indexOf_from_range (x : Z) (l : list Z) (i : Z) :
  indexOf_from i x l = -1 ∨
  i ≤ indexOf_from i x l < i + Z.of_nat (length l).
Proof.
  revert i. induction l as [|y l IH]; intros i; simpl; [by left|].
  destruct (y =? x); [right; lia|].
  destruct (IH (i + 1)) as [->|?]; [by left | right; lia].
Qed.

Lemma indexOf_from_found (x : Z) (l : list Z) (i j : Z) :
  0 ≤ i → indexOf_from i x l = j → j ≠ -1 →
  l !! Z.to_nat (j - i) = Some x ∧
  ∀ m, (m < Z.to_nat (j - i))%nat → l !! m ≠ Some x.
Proof.
  revert i. induction l as [|y l IH]; intros i Hi Hj Hne; simpl in Hj.
  - congruence.
  - destruct (y =? x) eqn:E.
    + apply Z.eqb_eq in E. subst y j. replace (i - i) with 0 by lia.
      split; [done | intros m Hm; simpl in Hm; lia].
    + apply Z.eqb_neq in E.
      pose proof (indexOf_from_range x l (i + 1)) as Hr.
      destruct (IH (i + 1) ltac:(lia) Hj Hne) as [Hfound Hfirst].
      assert (Z.to_nat (j - i) = S (Z.to_nat (j - (i + 1)))) as -> by lia.
      split; [done|]. intros [|m] Hm; simpl; [congruence|].
      apply Hfirst. lia.
Qed.

Lemma indexOf_from_first (x : Z) (l : list Z) (i : Z) (n : nat) :
  l !! n = Some x → (∀ m, (m < n)%nat → l !! m ≠ Some x) →
  indexOf_from i x l = i + Z.of_nat n.
Proof.
  revert i n. induction l as [|y l IH]; intros i n Hn Hfirst; [done|].
  simpl. destruct n as [|n]; simpl in Hn.
  - injection Hn as ->. rewrite Z.eqb_refl. lia.
  - destruct (y =? x) eqn:E.
    + apply Z.eqb_eq in E. subst.
      exfalso. apply (Hfirst 0%nat); [lia | done].
    + rewrite (IH (i + 1) n Hn); [lia|].
      intros m Hm. apply (Hfirst (S m)). lia.
Qed.

Lemma indexOf_from_none (x : Z) (l : list Z) (i : Z) :
  0 ≤ i → indexOf_from i x l = -1 → ∀ n, l !! n ≠ Some x.
Proof.
  revert i. induction l as [|y l IH]; intros i Hi Hnone n; [done|].
  simpl in Hnone. destruct (y =? x) eqn:E; [lia|].
  apply Z.eqb_neq in E. destruct n as [|n]; simpl; [congruence|].
  apply (IH (i + 1)); [lia | done].
Qed.

(** [checkOrder] compares the call's rank with the LOWEST rank appended
    so far: it throws exactly when that one is above the call's. *)
Lemma order_violated_iff (value : nat) (o : CssSelector) :
  order_violated value o = true ↔
  ∃ r, appended o r ∧ (∀ m, (m < r)%nat → ¬ appended o m) ∧
       (value < r)%nat.
Proof.
  unfold order_violated, appended, indexOf. split.
  - intros [Hne Hgt]%andb_prop.
    apply negb_true_iff, Z.eqb_neq in Hne. apply Z.gtb_lt in Hgt.
    destruct (indexOf_from_found 1 (order o) 0 _ ltac:(lia) eq_refl Hne)
      as [Hfound Hfirst].
    pose proof (indexOf_from_range 1 (order o) 0) as [?|?]; [done|].
    rewrite Z.sub_0_r in *.
    exists (Z.to_nat (indexOf_from 0 1 (order o))).
    split_and!; [done | done | lia].
  - intros (r & Hr & Hfirst & Hlt).
    rewrite (indexOf_from_first 1 (order o) 0 r Hr Hfirst).
    apply andb_true_intro. split.
    + apply negb_true_iff, Z.eqb_neq. lia.
    + apply Z.gtb_lt. lia.
Qed.

(** No rank above the call's has been appended: the order test passes. *)
Lemma order_allowed (value : nat) (o : CssSelector) :
  (∀ r, appended o r → (r ≤ value)%nat) → order_violated value o = false.
Proof.
  intros Hle. apply not_true_is_false. intros Hv.
  apply order_violated_iff in Hv as (r & Hr & _ & Hlt).
  specialize (Hle r Hr). lia.
Qed.

Lemma order_allowed_last (o : CssSelector) :
  length (order o) = 6%nat → order_violated 5 o = false.
Proof.
  intros Hlen. apply order_allowed. intros r Hr.
  apply lookup_lt_Some in Hr. lia.
Qed.

(** ** The object invariant *)

Lemma wf_fresh : wf fresh.
Proof. split; [reflexivity | done]. Qed.

Lemma wf_record_rank (r : nat) (o : CssSelector) :
  wf o → wf (record_rank r o).
Proof.
  intros [Hlen Hpe]. split; simpl.
  - by rewrite length_insert.
  - intros Hne. specialize (Hpe Hne). unfold appended in *. simpl.
    destruct (decide (r = 5%nat)) as [->|Hr].
    + apply list_lookup_insert_eq. lia.
    + by rewrite list_lookup_insert_ne.
Qed.

Lemma appended_record_rank (r : nat) (o : CssSelector) :
  (r < length (order o))%nat → appended (record_rank r o) r.
Proof. intros Hlt. by apply list_lookup_insert_eq. Qed.

Lemma wf_body (k : fragment) (v : jsstring) (o : CssSelector) :
  wf o → wf (body k v o).2.
Proof.
  intros Hwf. pose proof (wf_record_rank (rank k) o Hwf) as [Hlen Hpe].
  body_cases k;
    repeat match goal with
           | |- context [if ?b then _ else _] => destruct b eqn:?
           end; simpl; try done; try by apply wf_record_rank.
  split; [done|]. intros _. apply appended_record_rank.
  destruct Hwf as [-> _]. lia.
Qed.

Lemma wf_combine (t c : jsstring) (o : CssSelector) :
  wf o → wf (set_combinator c (set_supSelector t o)).
Proof. intros [? ?]. by split. Qed.

Lemma reachable_wf (h : heap) : reachable h → Forall wf h.
Proof.
  intros [acts Hrun].
  eapply (run_Forall wf wf_body wf_combine wf_fresh); eauto.
Qed.

Lemma record_rank_id (r : nat) (o : CssSelector) :
  appended o r → record_rank r o = o.
Proof.
  unfold appended, record_rank, set_order. intros Hr.
  rewrite list_insert_id by done. by destruct o.
Qed.

(** A fragment method that throws has written nothing the object did not
    hold already. *)
Lemma body_throw_unchanged (k : fragment) (v : jsstring)
    (o o' : CssSelector) (e : exn) :
  wf o → body k v o = (Throw e, o') → o' = o.
Proof.
  intros [Hlen Hpe] Hb.
  body_cases k;
    repeat match type of Hb with
           | context [if ?b then _ else _] => destruct b eqn:?
           end; try congruence.
  injection Hb as _ <-. apply record_rank_id, Hpe.
  by apply strict_neq_true.
Qed.

(** ** The uniqueness check *)

Lemma unique_field_kept (k k' : fragment) (f : CssSelector → jsstring)
    (v : jsstring) (o : CssSelector) :
  unique_field k = Some f → f o ≠ empty → f (body k' v o).2 ≠ empty.
Proof.
  intros Hf Hne.
  destruct k; simplify_eq/=; body_cases k';
    repeat match goal with
           | |- context [if ?b then _ else _] => destruct b eqn:?
           end; simpl; try done;
    match goal with
    | E : strict_neq _ empty = false |- _ =>
        apply strict_neq_false in E; congruence
    end.
Qed.

Lemma body_duplicate (k : fragment) (f : CssSelector → jsstring)
    (v : jsstring) (o : CssSelector) :
  wf o → unique_field k = Some f → f o ≠ empty →
  body k v o = (Throw (Error Body.duplicate_message), o).
Proof.
  intros [Hlen Hpe] Hf Hne.
  destruct k; simplify_eq/=; apply strict_neq_true in Hne as Hb.
  - by rewrite element_eq, Hb.
  - by rewrite id_eq, Hb.
  - rewrite pseudoElement_eq, order_allowed_last, Hb by done.
    by rewrite record_rank_id by auto.
Qed.

Lemma body_return_unique (k : fragment) (f : CssSelector → jsstring)
    (v : jsstring) (o o' : CssSelector) :
  unique_field k = Some f → (k = Element → v ≠ empty) →
  body k v o = (Return tt, o') → f o' ≠ empty.
Proof.
  intros Hf Hv Hb.
  destruct k; simplify_eq/=; body_norm;
    repeat match type of Hb with
           | context [if ?b then _ else _] => destruct b eqn:?
           end; simplify_eq/=; auto.
  all: intros Habs; apply (f_equal length) in Habs;
    rewrite ?length_app in Habs; simpl in Habs; lia.
Qed.

(** ** Order of the fragments *)

(** The case the documentation gives: [id('x')] then [element('div')]
    throws the order error. *)
Example id_then_element_throws :
  ∃ h,
    (this <- cssSelectorBuilder.id (lit "x") ;;
     Obj.element this (lit "div"))%heap []
    = Some (Throw (Error Body.order_message), h).
Proof. eexists. vm_compute. reflexivity. Qed.

(** A call whose rank is at least every rank appended so far passes the
    order test, and one whose rank is below all of them fails it. *)
Lemma order_test_at_the_ends (value : nat) (o : CssSelector) :
  ((∀ r, appended o r → (r ≤ value)%nat) →
   order_violated value o = false) ∧
  ((∃ r, appended o r) → (∀ r, appended o r → (value < r)%nat) →
   order_violated value o = true).
Proof.
  split; [apply order_allowed|].
  intros [r Hr] Hall. unfold order_violated, indexOf.
  destruct (decide (indexOf_from 0 1 (order o) = -1)) as [Hnone|Hsome].
  - by destruct (indexOf_from_none 1 (order o) 0 ltac:(lia) Hnone r).
  - destruct (indexOf_from_found 1 (order o) 0 _ ltac:(lia) eq_refl Hsome)
      as [Hfound _].
    pose proof (indexOf_from_range 1 (order o) 0) as [?|?]; [done|].
    specialize (Hall _ Hfound). rewrite Z.sub_0_r in Hall.
    apply andb_true_intro. split.
    + by apply negb_true_iff, Z.eqb_neq.
    + apply Z.gtb_lt. lia.
Qed.

(** C1. A call of a rank below the highest rank appended should throw the
    order error. On [element('a').class('b')] the call [id('c')], of rank
    1 below the appended rank 2, returns, and the builder renders
    ['a#c.b']: [checkOrder] compares with [order.indexOf(1)], the lowest
    rank appended. *)
Theorem C1_id_accepted_after_class :
  ∃ h o h',
    (this <- cssSelectorBuilder.element (lit "a") ;;
     Obj.class this (lit "b"))%heap [] = Some (Return 0%nat, h) ∧
    h !! 0%nat = Some o ∧
    appended o (rank Class) ∧ (rank Id < rank Class)%nat ∧
    Obj.id 0 (lit "c") h = Some (Return 0%nat, h') ∧
    Obj.stringify 0 h' = Some (Return (lit "a#c.b"), h').
Proof.
  eexists _, _, _. split_and!; vm_compute; reflexivity.
Qed.

(** ** At most one element, id and pseudo-element *)

(** C2, as stated, fails: on a new builder [element('')] returns and
    leaves [elementValue] at [''], the value [assertEmpty] takes for
    "not set", so the second call [element('x')] returns as well. *)
Lemma C2_counterexample :
  ∃ h1 h2,
    (this <- new ;; Obj.element this empty)%heap []
      = Some (Return 0%nat, h1) ∧
    Obj.element 0 (lit "x") h1 = Some (Return 0%nat, h2) ∧
    ∀ h3, Obj.element 0 (lit "x") h1
          ≠ Some (Throw (Error Body.duplicate_message), h3).
Proof.
  eexists _, _. split_and!; try (vm_compute; reflexivity).
  intros h3. vm_compute. congruence.
Qed.

(** C2, amended. On a builder of a reachable store, once [element] has
    returned for a non-empty value, or [id] or [pseudoElement] for any
    value, every later call of the same method, whatever calls were made
    in between and whatever its argument, throws the duplicate error
    (and leaves the store as it was). *)
Theorem C2_second_call_throws_duplicate
    (acts : list action) (h h1 h2 : heap) (this : loc)
    (k : fragment) (f : CssSelector → jsstring) (v1 v2 : jsstring) :
  reachable h →
  unique_field k = Some f →
  (k = Element → v1 ≠ empty) →
  append k this v1 h = Some (Return this, h1) →
  run acts h1 = Some h2 →
  append k this v2 h2 = Some (Throw (Error Body.duplicate_message), h2).
Proof.
  intros Hreach Hf Hv Hfirst Hrun.
  rewrite append_eq in Hfirst.
  destruct (h !! this) as [o|] eqn:Ho; simplify_eq/=.
  destruct (body k v1 o) as [[[]|e] o1] eqn:Hb; simplify_eq/=.
  pose proof (reachable_wf _ Hreach) as Hwf.
  assert (wf o) as Hwo by (eapply Forall_lookup_1; eauto).
  assert (wf o1 ∧ f o1 ≠ empty) as Ho1.
  { split.
    - pose proof (wf_body k v1 o Hwo) as Hw. by rewrite Hb in Hw.
    - eapply body_return_unique; eauto. }
  destruct (run_stable (λ o, wf o ∧ f o ≠ empty)) with
    (acts := acts) (h := <[this := o1]> h) (h' := h2) (r := this) (o := o1)
    as (o2 & Ho2 & Hwo2 & Hne2); try done.
  - intros k' v o' [? ?]. split; [by apply wf_body|].
    eapply unique_field_kept; eauto.
  - intros t c o' [? ?]. split; [by apply wf_combine|].
    destruct k; simplify_eq/=; done.
  - apply list_lookup_insert_eq. by eapply lookup_lt_Some.
  - rewrite append_eq, Ho2. simpl.
    rewrite (body_duplicate k f v2 o2) by done. simpl.
    by rewrite list_insert_id.
Qed.

Lemma C2_second_call_throws_duplicate_witness :
  append PseudoElement 0 (lit "before")
    [(body PseudoElement (lit "after") fresh).2]
  = Some (Throw (Error Body.duplicate_message),
          [(body PseudoElement (lit "after") fresh).2]).
Proof.
  apply (C2_second_call_throws_duplicate [] [fresh]
           [(body PseudoElement (lit "after") fresh).2] _
           0 PseudoElement pseudoElementValue (lit "after")).
  - by exists [New].
  - reflexivity.
  - intros [=].
  - vm_compute. reflexivity.
  - reflexivity.
Defined.

(** ** The example of a combined selector *)

(** C3. The combination of the three-level example renders with the run
    of three spaces before the last [td]. *)
Theorem C3_combined_selector_example :
  fst <$>
    (div <- cssSelectorBuilder.element (lit "div") ;;
     div <- Obj.id div (lit "main") ;;
     div <- Obj.class div (lit "container") ;;
     div <- Obj.class div (lit "draggable") ;;
     table <- cssSelectorBuilder.element (lit "table") ;;
     table <- Obj.id table (lit "data") ;;
     tr <- cssSelectorBuilder.element (lit "tr") ;;
     tr <- Obj.pseudoClass tr (lit "nth-of-type(even)") ;;
     td <- cssSelectorBuilder.element (lit "td") ;;
     td <- Obj.pseudoClass td (lit "nth-of-type(even)") ;;
     inner <- cssSelectorBuilder.combine tr (lit " ") td ;;
     middle <- cssSelectorBuilder.combine table (lit "~") inner ;;
     outer <- cssSelectorBuilder.combine div (lit "+") middle ;;
     Obj.stringify outer)%heap []
  = Some (Return (lit "div#main.container.draggable + table#data ~ tr:nth-of-type(even)   td:nth-of-type(even)")).
Proof. vm_compute. reflexivity. Qed.

(** ** The messages of the two errors *)

(** C4, as stated, fails: the duplicate error that the second [element]
    call throws does not carry the message with "more than one time".
    The message of the order error is the one stated. *)
Lemma C4_counterexample :
  ∃ h e,
    (this <- cssSelectorBuilder.element (lit "div") ;;
     Obj.element this (lit "span"))%heap [] = Some (Throw e, h) ∧
    message e ≠ spec_duplicate_message ∧
    Body.order_message = spec_order_message.
Proof.
  eexists _, _. split_and!; [vm_compute; reflexivity | | reflexivity].
  vm_compute. congruence.
Qed.

(** C4, amended. A fragment method throws for one of two reasons. Either
    the field that [assertEmpty] guards is not empty, and the message is
    the one with "more then one time"; or the order test fails, and the
    message is the one that lists the order of the parts. *)
Theorem C4_error_messages
    (h h' : heap) (this : loc) (k : fragment) (v : jsstring) (e : exn) :
  append k this v h = Some (Throw e, h') →
  ∃ o, h !! this = Some o ∧
    ((∃ f, unique_field k = Some f ∧ f o ≠ empty) ∧
     message e = lit "Element, id and pseudo-element should not occur more then one time inside the selector"
     ∨
     order_violated (rank k) o = true ∧
     message e = lit "Selector parts should be arranged in the following order: element, id, class, attribute, pseudo-class, pseudo-element").
Proof.
  rewrite append_eq. intros Ha.
  destruct (h !! this) as [o|]; simplify_eq/=. exists o. split; [done|].
  destruct (body k v o) as [[[]|e'] o'] eqn:Hb; simplify_eq/=.
  body_cases k;
    repeat match type of Hb with
           | context [if ?b then _ else _] => destruct b eqn:?
           end; simplify_eq/=;
    try (right; split; [done | reflexivity]);
    left; (split; [eexists; split; [reflexivity|] | reflexivity]);
    by apply strict_neq_true.
Qed.

Lemma C4_error_messages_witness :
  ∃ o, [(body Id (lit "x") fresh).2] !! 0%nat = Some o ∧
    ((∃ f, unique_field Element = Some f ∧ f o ≠ empty) ∧
     message (Error Body.order_message) = lit "Element, id and pseudo-element should not occur more then one time inside the selector"
     ∨
     order_violated (rank Element) o = true ∧
     message (Error Body.order_message) = lit "Selector parts should be arranged in the following order: element, id, class, attribute, pseudo-class, pseudo-element").
Proof.
  apply (C4_error_messages [(body Id (lit "x") fresh).2]
           [(body Id (lit "x") fresh).2] 0 Element (lit "div")).
  vm_compute. reflexivity.
Defined.

(** ** What a fragment method leaves alone *)

Lemma body_frame (k : fragment) (v : jsstring) (o : CssSelector) :
  combinator (body k v o).2 = combinator o ∧
  supSelector (body k v o).2 = supSelector o ∧
  ∀ k', k' ≠ k → field k' (body k v o).2 = field k' o.
Proof.
  body_cases k;
    repeat match goal with
           | |- context [if ?b then _ else _] => destruct b eqn:?
           end; simpl; split_and!; try done;
    intros []; simpl; done.
Qed.

(** ** The two fields of a combination *)

(** C5, as stated, fails: a combinator argument is an arbitrary string,
    and with [''] for it [combine] leaves [combinator] unset next to a
    stored right-hand text. *)
Lemma C5_counterexample :
  ∃ h o,
    (a <- cssSelectorBuilder.element (lit "a") ;;
     b <- cssSelectorBuilder.element (lit "b") ;;
     cssSelectorBuilder.combine a empty b)%heap [] = Some (Return 0%nat, h) ∧
    h !! 0%nat = Some o ∧
    combinator o = empty ∧ supSelector o = lit "b" ∧
    ¬ link_consistent o.
Proof.
  eexists _, _. split_and!; try (vm_compute; reflexivity).
  intros [[_ Hs]|[Hc _]]; [discriminate Hs | by apply Hc].
Qed.

(** The other way for the two fields to part: a right operand that
    renders to ['']. *)
Example combine_with_empty_right_operand :
  ∃ h o,
    (a <- cssSelectorBuilder.element (lit "a") ;;
     b <- new ;;
     cssSelectorBuilder.combine a (lit "+") b)%heap []
      = Some (Return 0%nat, h) ∧
    h !! 0%nat = Some o ∧
    combinator o = lit "+" ∧ supSelector o = empty ∧
    Body.stringify_text o = lit "a".
Proof. eexists _, _. split_and!; vm_compute; reflexivity. Qed.

Lemma step_link_consistent (a : action) (h h' : heap) :
  combine_nonempty a h = true → step a h = Some h' →
  Forall link_consistent h → Forall link_consistent h'.
Proof.
  intros Hok Hs Hall. destruct a as [|this k v|this sel c|this].
  - rewrite step_New in Hs. simplify_eq.
    apply Forall_app. split; [done|].
    apply Forall_singleton. by left.
  - rewrite step_Append in Hs.
    destruct (h !! this) as [o|] eqn:Ho; simplify_eq/=.
    apply Forall_insert; [done|].
    pose proof (Forall_lookup_1 _ _ _ _ Hall Ho) as Hl.
    destruct (body_frame k v o) as (Hc & Ht & _).
    unfold link_consistent. by rewrite Hc, Ht.
  - rewrite step_Combine in Hs. simpl in Hok.
    apply andb_prop in Hok as [Hc Ht].
    destruct (h !! sel) as [ro|]; [|done].
    destruct (h !! this) as [o|]; simplify_eq.
    apply Forall_insert; [done|]. right.
    split; simpl; by apply strict_neq_true.
  - rewrite step_Stringify in Hs.
    destruct (h !! this); by simplify_eq/=.
Qed.

Lemma run_link_consistent (acts : list action) (h h' : heap) :
  combines_nonempty acts h = true → run acts h = Some h' →
  Forall link_consistent h → Forall link_consistent h'.
Proof.
  revert h. induction acts as [|a acts IH]; intros h Hok Hrun Hall.
  - by simplify_eq/=.
  - simpl in Hok, Hrun. apply andb_prop in Hok as [Ha Hrest].
    destruct (step a h) as [h1|] eqn:Hs; [|done].
    eauto using step_link_consistent.
Qed.

(** C5, amended. In every store built by calls whose [combine]s all get a
    non-empty combinator and a right operand that renders to a non-empty
    text, each builder has [combinator] and [supSelector] both [''] or
    both non-empty. *)
Theorem C5_link_fields_go_together
    (acts : list action) (h : heap) (this : loc) (o : CssSelector) :
  run acts [] = Some h →
  combines_nonempty acts [] = true →
  h !! this = Some o →
  link_consistent o.
Proof.
  intros Hrun Hok Ho.
  eapply Forall_lookup_1; [|exact Ho].
  eapply run_link_consistent; eauto.
Qed.

Lemma C5_link_fields_go_together_witness :
  link_consistent
    (set_combinator (lit "+")
       (set_supSelector (lit "b") (body Element (lit "a") fresh).2)).
Proof.
  apply (C5_link_fields_go_together
           [New; Append 0 Element (lit "a");
            New; Append 1 Element (lit "b"); Combine 0 1 (lit "+")]
           [set_combinator (lit "+")
              (set_supSelector (lit "b") (body Element (lit "a") fresh).2);
            (body Element (lit "b") fresh).2] 0).
  - vm_compute. reflexivity.
  - vm_compute. reflexivity.
  - reflexivity.
Defined.

(** ** [stringify] *)

(** C6. On every builder of every store, reachable ones among them,
    [stringify()] returns a string and does not throw, leaves the store
    as it was, and returns the same string when called again. *)
Theorem C6_stringify_is_pure (h : heap) (this : loc) (o : CssSelector) :
  h !! this = Some o →
  ∃ text,
    Obj.stringify this h = Some (Return text, h) ∧
    (Obj.stringify this ;; Obj.stringify this)%heap h
      = Some (Return text, h).
Proof.
  intros Ho. exists (Body.stringify_text o).
  unfold hbind. rewrite !stringify_eq, Ho. simpl.
  rewrite stringify_eq, Ho. done.
Qed.

Lemma C6_stringify_is_pure_witness :
  ∃ text,
    Obj.stringify 0 [(body Class (lit "c") fresh).2]
      = Some (Return text, [(body Class (lit "c") fresh).2]) ∧
    (Obj.stringify 0 ;; Obj.stringify 0)%heap
      [(body Class (lit "c") fresh).2]
      = Some (Return text, [(body Class (lit "c") fresh).2]).
Proof.
  apply (C6_stringify_is_pure [(body Class (lit "c") fresh).2] 0
           (body Class (lit "c") fresh).2).
  reflexivity.
Defined.

(** ** The facade *)

Lemma body_fresh_returns (k : fragment) (v : jsstring) :
  (body k v fresh).1 = Return tt.
Proof. destruct k; reflexivity. Qed.

Lemma facade_eq (k : fragment) (v : jsstring) (h : heap) :
  facade k v h = Some (Return (length h), h ++ [(body k v fresh).2]).
Proof.
  transitivity (FacadeSpec.entry k v h); [by destruct k|].
  unfold FacadeSpec.entry, FacadeSpec.on_new_builder, hbind, new.
  rewrite append_eq, lookup_app_r, Nat.sub_diag by done. simpl.
  rewrite body_fresh_returns.
  rewrite insert_app_r_alt, Nat.sub_diag by done. done.
Qed.

(** C7. Each entry point of the facade is the instance method on a new
    builder: it allocates one object, never throws, and leaves in the
    store what the method makes of the initial fields. The facade's
    [combine(s1, op, s2)] is [s1.combine(s2, op)]: it writes to [s1] and
    returns [s1] itself. *)
Theorem C7_facade_is_method_on_new_builder
    (k : fragment) (v op : jsstring) (s1 s2 : loc) (h : heap) :
  facade k v h = FacadeSpec.entry k v h ∧
  facade k v h = Some (Return (length h), h ++ [(body k v fresh).2]) ∧
  cssSelectorBuilder.combine s1 op s2 h = FacadeSpec.combine s1 op s2 h ∧
  cssSelectorBuilder.combine s1 op s2 h =
    match h !! s2, h !! s1 with
    | Some o2, Some o1 =>
        Some (Return s1,
              <[s1 := set_combinator op
                        (set_supSelector (Body.stringify_text o2) o1)]> h)
    | _, _ => None
    end.
Proof.
  split_and!.
  - by destruct k.
  - apply facade_eq.
  - reflexivity.
  - unfold cssSelectorBuilder.combine. by rewrite combine_eq.
Qed.

(** ** Repeated fragments *)

Lemma order_violated_record_rank (r : nat) (o : CssSelector) :
  order_violated r (record_rank r o) = false.
Proof.
  apply not_true_is_false. intros Hv.
  apply order_violated_iff in Hv as (r' & Hr' & Hfirst & Hlt).
  apply (Hfirst r Hlt). apply appended_record_rank.
  apply lookup_lt_Some in Hr'. simpl in Hr'.
  rewrite length_insert in Hr'. lia.
Qed.

(** [stringify] reads the six fragment fields and the two fields of the
    combination, nothing else. *)
Lemma stringify_text_ext (o1 o2 : CssSelector) :
  (∀ k, field k o1 = field k o2) →
  combinator o1 = combinator o2 → supSelector o1 = supSelector o2 →
  Body.stringify_text o1 = Body.stringify_text o2.
Proof.
  intros Hf Hc Hs. unfold Body.stringify_text.
  pose proof (Hf Element) as H0. pose proof (Hf Id) as H1.
  pose proof (Hf Class) as H2. pose proof (Hf Attr) as H3.
  pose proof (Hf PseudoClass) as H4. pose proof (Hf PseudoElement) as H5.
  simpl in *. by rewrite Hc, Hs, H0, H1, H2, H3, H4, H5.
Qed.

Lemma stringify_text_unlinked (o : CssSelector) :
  combinator o = empty →
  Body.stringify_text o =
  trim (field Element o ++ field Id o ++ field Class o ++ field Attr o
          ++ field PseudoClass o ++ field PseudoElement o ++ lit " ").
Proof.
  intros Hc. unfold Body.stringify_text. rewrite Hc.
  replace (strict_neq empty empty) with false
    by (symmetry; by apply strict_neq_false).
  unfold concat. cbn [andb field]. by rewrite <- !app_assoc.
Qed.

Lemma body_repeatable (k : fragment) (v : jsstring) (o : CssSelector) :
  repeatable k = true → order_violated (rank k) o = false →
  (body k v o).1 = Return tt ∧
  field k (body k v o).2 = field k o ++ render k v ∧
  order_violated (rank k) (body k v o).2 = false.
Proof.
  intros Hk Hv. body_cases k; try discriminate Hk; simpl rank in *;
    rewrite Hv; simpl; split_and!; try done;
    apply order_violated_record_rank.
Qed.

Lemma chain_repeatable (k : fragment) (vs : list jsstring) (h : heap)
    (this : loc) (o : CssSelector) :
  repeatable k = true → h !! this = Some o →
  order_violated (rank k) o = false →
  ∃ o',
    chain this (pair k <$> vs) h = Some (Return this, <[this := o']> h) ∧
    field k o' = field k o ++ rendered k vs ∧
    (∀ k', k' ≠ k → field k' o' = field k' o) ∧
    combinator o' = combinator o ∧ supSelector o' = supSelector o.
Proof.
  intros Hk. revert h o. induction vs as [|v vs IH]; intros h o Ho Hv.
  - exists o. simpl. unfold hret. rewrite list_insert_id by done.
    rewrite app_nil_r. done.
  - rewrite fmap_cons. cbn [chain]. unfold hbind at 1.
    rewrite append_eq, Ho. cbn [fmap option_fmap option_map].
    destruct (body_repeatable k v o Hk Hv) as (-> & Hfield & Hv1).
    destruct (body_frame k v o) as (Hc1 & Hs1 & Hother1).
    destruct (IH (<[this := (body k v o).2]> h) (body k v o).2)
      as (o' & Hchain & Hfield' & Hother' & Hc' & Hs'); [|done|].
    { apply list_lookup_insert_eq. by eapply lookup_lt_Some. }
    exists o'. rewrite Hchain, list_insert_insert_eq.
    split_and!; try congruence.
    + by rewrite Hfield', Hfield, <- app_assoc.
    + intros k' Hne. rewrite Hother' by done. by apply Hother1.
Qed.

(** C8. The two examples render as documented, and repeated [class],
    [attr] or [pseudoClass] calls are rendered one after the other in
    call order: started from the facade, the chain of calls of one such
    kind never throws and renders to the texts of its arguments in
    order; on any builder that admits the kind, the chain appends these
    texts to the kind's field and leaves the other fields. *)
Theorem C8_examples_and_repeated_fragments :
  fst <$>
    (b <- cssSelectorBuilder.id (lit "main") ;;
     b <- Obj.class b (lit "container") ;;
     b <- Obj.class b (lit "editable") ;;
     Obj.stringify b)%heap []
  = Some (Return (lit "#main.container.editable")) ∧
  fst <$>
    (b <- cssSelectorBuilder.element (lit "a") ;;
     b <- Obj.attr b (lit "href$=" ++ dquote ++ lit ".png" ++ dquote) ;;
     b <- Obj.pseudoClass b (lit "focus") ;;
     Obj.stringify b)%heap []
  = Some (Return
            (lit "a[href$=" ++ dquote ++ lit ".png" ++ dquote
               ++ lit "]:focus")) ∧
  (∀ k v vs h, repeatable k = true →
     fst <$>
       (b <- facade k v ;;
        b <- chain b (pair k <$> vs) ;;
        Obj.stringify b)%heap h
     = Some (Return (trim (render k v ++ rendered k vs ++ lit " ")))) ∧
  (∀ k vs h this o, repeatable k = true → h !! this = Some o →
     order_violated (rank k) o = false →
     ∃ o',
       chain this (pair k <$> vs) h
         = Some (Return this, <[this := o']> h) ∧
       field k o' = field k o ++ rendered k vs ∧
       (∀ k', k' ≠ k → field k' o' = field k' o) ∧
       combinator o' = combinator o ∧ supSelector o' = supSelector o).
Proof.
  split_and!.
  - vm_compute. reflexivity.
  - vm_compute. reflexivity.
  - intros k v vs h Hk.
    unfold hbind at 1. rewrite facade_eq.
    destruct (body_repeatable k v fresh Hk) as (_ & Hfield & Hv);
      [by destruct k|].
    destruct (body_frame k v fresh) as (Hc & Hs & Hother).
    destruct (chain_repeatable k vs (h ++ [(body k v fresh).2]) (length h)
                (body k v fresh).2 Hk)
      as (o' & Hchain & Hfield' & Hother' & Hc' & Hs'); [|done|].
    { by rewrite lookup_app_r, Nat.sub_diag. }
    unfold hbind. rewrite Hchain, stringify_eq.
    rewrite list_lookup_insert_eq
      by (rewrite length_app; simpl; lia).
    cbn [fmap option_fmap option_map fst]. do 2 f_equal.
    rewrite stringify_text_unlinked by (by rewrite Hc', Hc).
    destruct k; try discriminate Hk;
      rewrite Hfield', Hfield;
      rewrite ?(Hother' Element), ?(Hother' Id), ?(Hother' Class),
        ?(Hother' Attr), ?(Hother' PseudoClass), ?(Hother' PseudoElement)
        by done;
      rewrite ?(Hother Element), ?(Hother Id), ?(Hother Class),
        ?(Hother Attr), ?(Hother PseudoClass), ?(Hother PseudoElement)
        by done;
      cbn [field fresh elementValue idValue classes attrs pseudoClasses
             pseudoElementValue];
      unfold empty; rewrite ?app_nil_l, ?app_nil_r, <- ?app_assoc;
      reflexivity.
  - intros k vs h this o. apply chain_repeatable.
Qed.

Lemma C8_examples_and_repeated_fragments_witness :
  fst <$>
    (b <- facade Class (lit "x") ;;
     b <- chain b (pair Class <$> [lit "y"; lit "z"]) ;;
     Obj.stringify b)%heap []
  = Some (Return (lit ".x.y.z")) ∧
  ∃ o',
    chain 0 (pair Attr <$> [lit "p"; lit "q"]) [fresh]
      = Some (Return 0%nat, <[0%nat := o']> [fresh]) ∧
    field Attr o' = lit "[p][q]".
Proof.
  destruct C8_examples_and_repeated_fragments as (_ & _ & Hfacade & Hany).
  split.
  - rewrite (Hfacade Class (lit "x") [lit "y"; lit "z"] []) by reflexivity.
    reflexivity.
  - destruct (Hany Attr [lit "p"; lit "q"] [fresh] 0%nat fresh)
      as (o' & Hchain & Hfield & _); [reflexivity..|].
    exists o'. split; [exact Hchain | exact Hfield].
Defined.

(** ** [combine] *)

Lemma step_frame (a : action) (h h' : heap) (r : loc) (o : CssSelector) :
  writes a ≠ Some r → step a h = Some h' →
  h !! r = Some o → h' !! r = Some o.
Proof.
  intros Hw Hs Hr. destruct a as [|this k v|this sel c|this]; simpl in Hw.
  - rewrite step_New in Hs. simplify_eq.
    rewrite lookup_app_l; [done | by eapply lookup_lt_Some].
  - rewrite step_Append in Hs.
    destruct (h !! this); simplify_eq/=.
    rewrite list_lookup_insert_ne; [done | congruence].
  - rewrite step_Combine in Hs.
    destruct (h !! sel); [|done]. destruct (h !! this); simplify_eq.
    rewrite list_lookup_insert_ne; [done | congruence].
  - rewrite step_Stringify in Hs.
    destruct (h !! this); by simplify_eq/=.
Qed.

Lemma run_frame (acts : list action) (h h' : heap) (r : loc)
    (o : CssSelector) :
  Forall (λ a, writes a ≠ Some r) acts → run acts h = Some h' →
  h !! r = Some o → h' !! r = Some o.
Proof.
  intros Hw. revert h. induction Hw as [|a acts Ha _ IH]; intros h Hrun Hr.
  - by simplify_eq/=.
  - simpl in Hrun. destruct (step a h) as [h1|] eqn:Hs; [|done].
    eauto using step_frame.
Qed.

(** C9. [left.combine(right, op)] returns [left] and writes to [left]
    the text [right.stringify()] has at the call, and [op]; the fragment
    fields and [order] of [left] keep their values, and so does every
    other builder, [right] among them when it is another builder. Calls
    made afterwards on the other builders do not change what [left]
    renders to. A second [combine] on [left] replaces both stored
    values. *)
Theorem C9_combine_stores_rendered_text
    (h : heap) (left right : loc) (op : jsstring) (lo ro : CssSelector) :
  h !! left = Some lo →
  h !! right = Some ro →
  let lo' := set_combinator op
               (set_supSelector (Body.stringify_text ro) lo) in
  let h' := <[left := lo']> h in
  Obj.combine left right op h = Some (Return left, h') ∧
  h' !! left = Some lo' ∧
  supSelector lo' = Body.stringify_text ro ∧ combinator lo' = op ∧
  (∀ k, field k lo' = field k lo) ∧ order lo' = order lo ∧
  (∀ r, r ≠ left → h' !! r = h !! r) ∧
  (right ≠ left → h' !! right = Some ro) ∧
  (∀ acts h'', Forall (λ a, writes a ≠ Some left) acts →
     run acts h' = Some h'' →
     Obj.stringify left h''
       = Some (Return (Body.stringify_text lo'), h'')) ∧
  (∀ right2 op2 ro2, h' !! right2 = Some ro2 →
     Obj.combine left right2 op2 h'
     = Some (Return left,
             <[left := set_combinator op2
                         (set_supSelector (Body.stringify_text ro2) lo)]>
               h)).
Proof.
  intros Hl Hr lo' h'.
  assert (h' !! left = Some lo') as Hl'.
  { apply list_lookup_insert_eq. by eapply lookup_lt_Some. }
  split_and!; try done.
  - by rewrite combine_eq, Hr, Hl.
  - by intros [].
  - intros r Hne. by apply list_lookup_insert_ne.
  - intros Hne. subst h'. by rewrite list_lookup_insert_ne.
  - intros acts h'' Hw Hrun.
    rewrite stringify_eq, (run_frame acts h' h'' left lo' Hw Hrun Hl').
    done.
  - intros right2 op2 ro2 Hr2.
    rewrite combine_eq, Hr2, Hl'. subst h'.
    by rewrite list_insert_insert_eq.
Qed.

Lemma C9_combine_stores_rendered_text_witness :
  Obj.stringify 0
    [set_combinator (lit ">")
       (set_supSelector (lit "b") (body Element (lit "a") fresh).2);
     (body Class (lit "c") (body Element (lit "b") fresh).2).2]
  = Some (Return (lit "a > b"),
    [set_combinator (lit ">")
       (set_supSelector (lit "b") (body Element (lit "a") fresh).2);
     (body Class (lit "c") (body Element (lit "b") fresh).2).2]).
Proof.
  pose proof (C9_combine_stores_rendered_text
                [(body Element (lit "a") fresh).2;
                 (body Element (lit "b") fresh).2]
                0 1 (lit ">")
                (body Element (lit "a") fresh).2
                (body Element (lit "b") fresh).2
                eq_refl eq_refl) as Hc.
  cbv zeta in Hc.
  destruct Hc as (_ & _ & _ & _ & _ & _ & _ & _ & Hlater & _).
  apply (Hlater [Append 1 Class (lit "c")]).
  - repeat constructor. simpl. discriminate.
  - vm_compute. reflexivity.
Defined.

(** ** A throwing call *)

(** C10. On a builder of a reachable store, a fragment method that throws
    leaves the store as it was: the builder renders to the same string,
    and every later call or sequence of calls behaves as if the throwing
    call had not been made. *)
Theorem C10_throwing_call_changes_nothing
    (h h' : heap) (this : loc) (k : fragment)
    (v : jsstring) (e : exn) :
  reachable h →
  append k this v h = Some (Throw e, h') →
  h' = h ∧
  Obj.stringify this h' = Obj.stringify this h ∧
  (∀ k' this' v', append k' this' v' h' = append k' this' v' h) ∧
  (∀ this' sel c, Obj.combine this' sel c h' = Obj.combine this' sel c h) ∧
  (∀ acts', run acts' h' = run acts' h).
Proof.
  intros Hreach Ha.
  assert (h' = h) as ->; [|done].
  rewrite append_eq in Ha.
  destruct (h !! this) as [o|] eqn:Ho; simplify_eq/=.
  destruct (body k v o) as [[[]|e'] o'] eqn:Hb; simplify_eq/=.
  assert (wf o) as Hwf.
  { eapply Forall_lookup_1; [by apply reachable_wf | done]. }
  rewrite (body_throw_unchanged k v o o' e Hwf Hb).
  by apply list_insert_id.
Qed.

Lemma C10_throwing_call_changes_nothing_witness :
  let h := [(body PseudoElement (lit "after") fresh).2] in
  reachable h ∧
  append PseudoElement 0 (lit "before") h
    = Some (Throw (Error Body.duplicate_message), h) ∧
  Obj.stringify 0 h = Some (Return (lit "::after"), h) ∧
  (∀ acts', run acts' h = run acts' h).
Proof.
  intros h.
  assert (reachable h) as Hreach
    by (by exists [New; Append 0 PseudoElement (lit "after")]).
  assert (append PseudoElement 0 (lit "before") h
          = Some (Throw (Error Body.duplicate_message), h))
    as Hthrow by (vm_compute; reflexivity).
  split_and!; [exact Hreach | exact Hthrow | vm_compute; reflexivity |].
  apply (C10_throwing_call_changes_nothing h h 0 PseudoElement
           (lit "before") _ Hreach Hthrow).
Defined.

(** * Further properties of the builder *)

(** ** [trim] *)

Lemma trimStart_head (s : jsstring) (c : N) :
  head (trimStart s) = Some c → is_white_space c = false.
Proof.
  induction s as [|d s IH]; simpl; [done|].
  destruct (is_white_space d) eqn:E; [done|].
  simpl. by intros [= <-].
Qed.

Lemma trimStart_clean (s : jsstring) :
  (∀ c, head s = Some c → is_white_space c = false) → trimStart s = s.
Proof.
  destruct s as [|d s]; [done|]. intros Hc. simpl.
  by rewrite (Hc d eq_refl).
Qed.

Lemma trimStart_snoc (s : jsstring) (c : N) :
  is_white_space c = false → trimStart (s ++ [c]) = trimStart s ++ [c].
Proof.
  intros Hc. induction s as [|d s IH]; simpl; [by rewrite Hc|].
  by destruct (is_white_space d).
Qed.

Lemma trimEnd_last (s : jsstring) (c : N) :
  last (trimEnd s) = Some c → is_white_space c = false.
Proof.
  unfold trimEnd. rewrite last_reverse. apply trimStart_head.
Qed.

Lemma trimEnd_clean (s : jsstring) :
  (∀ c, last s = Some c → is_white_space c = false) → trimEnd s = s.
Proof.
  intros Hc. unfold trimEnd. rewrite trimStart_clean.
  - apply reverse_involutive.
  - intros c. rewrite head_reverse. apply Hc.
Qed.

Lemma trimEnd_head (s : jsstring) (c : N) :
  (∀ d, head s = Some d → is_white_space d = false) →
  head (trimEnd s) = Some c → is_white_space c = false.
Proof.
  intros Hs. destruct s as [|d s]; [done|].
  unfold trimEnd. rewrite reverse_cons, trimStart_snoc by by apply Hs.
  rewrite reverse_snoc. simpl. intros [= <-]. by apply Hs.
Qed.

Lemma trim_head (s : jsstring) (c : N) :
  head (trim s) = Some c → is_white_space c = false.
Proof. apply trimEnd_head. intros d. apply trimStart_head. Qed.

Lemma trim_last (s : jsstring) (c : N) :
  last (trim s) = Some c → is_white_space c = false.
Proof. apply trimEnd_last. Qed.

Lemma trim_clean (s : jsstring) :
  (∀ c, head s = Some c → is_white_space c = false) →
  (∀ c, last s = Some c → is_white_space c = false) →
  trim s = s.
Proof.
  intros Hh Hl. unfold trim. rewrite trimStart_clean by done.
  by apply trimEnd_clean.
Qed.

(** ** The order test *)

Lemma order_violated_above (value : nat) (o : CssSelector) :
  order_violated value o = true ↔
  (∃ r, appended o r) ∧ ∀ r, appended o r → (value < r)%nat.
Proof.
  split.
  - intros (r & Hr & Hfirst & Hlt)%order_violated_iff. split; [eauto|].
    intros r' Hr'. destruct (decide (r' < r)%nat) as [Hlow|]; [|lia].
    by destruct (Hfirst r' Hlow).
  - intros [Hex Hall]. by apply order_test_at_the_ends.
Qed.

(** X1. [checkOrder(value)] throws, and writes nothing, exactly when some
    rank has been appended and every appended rank is above [value]; in
    every other case it returns after writing [order[value] = 1]. *)
Theorem X1_checkOrder_throws_iff (value : nat) (o : CssSelector) :
  (Body.checkOrder value o = (Throw (Error Body.order_message), o) ↔
   (∃ r, appended o r) ∧ ∀ r, appended o r → (value < r)%nat) ∧
  (Body.checkOrder value o = (Return tt, record_rank value o) ↔
   ¬ ((∃ r, appended o r) ∧ ∀ r, appended o r → (value < r)%nat)).
Proof.
  rewrite checkOrder_eq.
  pose proof (order_violated_above value o) as Hiff.
  destruct (order_violated value o).
  - split; split.
    + intros _. by apply Hiff.
    + done.
    + intros [=].
    + intros Hc. destruct Hc. by apply Hiff.
  - split; split.
    + intros [=].
    + intros Hc%Hiff. done.
    + intros _ Hc%Hiff. done.
    + done.
Qed.

(** ** The rendered text *)

(** X2. The text [stringify()] returns neither starts nor ends with a
    white space or line terminator, and trimming it again returns it
    unchanged. *)
Theorem X2_stringify_text_is_trimmed
    (h h' : heap) (this : loc) (text : jsstring) :
  Obj.stringify this h = Some (Return text, h') →
  (∀ c, head text = Some c → is_white_space c = false) ∧
  (∀ c, last text = Some c → is_white_space c = false) ∧
  trim text = text.
Proof.
  rewrite stringify_eq. destruct (h !! this) as [o|]; [|done].
  simpl. intros [= <- <-]. unfold Body.stringify_text.
  split_and!.
  - apply trim_head.
  - apply trim_last.
  - apply trim_clean; [apply trim_head | apply trim_last].
Qed.

Lemma X2_stringify_text_is_trimmed_witness :
  let o := (body Class (lit "a ") fresh).2 in
  Obj.stringify 0 [o] = Some (Return (lit ".a"), [o]) ∧
  trim (lit ".a") = lit ".a".
Proof.
  intros o.
  assert (Obj.stringify 0 [o] = Some (Return (lit ".a"), [o])) as Hs
    by (vm_compute; reflexivity).
  split; [exact Hs|].
  apply (X2_stringify_text_is_trimmed [o] [o] 0 (lit ".a") Hs).
Defined.

(** ** What a returning call writes *)

Lemma rank_inj (k k' : fragment) : rank k = rank k' → k = k'.
Proof. by destruct k, k'. Qed.

Lemma kind_cases (k k' : fragment) : k' = k ∨ k' ≠ k.
Proof.
  destruct (decide (rank k' = rank k)) as [Hr|Hr].
  - left. by apply rank_inj.
  - right. congruence.
Qed.

Lemma rank_lt (k : fragment) : (rank k < 6)%nat.
Proof. destruct k; simpl; lia. Qed.

Lemma render_nonempty (k : fragment) (v : jsstring) :
  k ≠ Element → render k v ≠ empty.
Proof. by destruct k. Qed.

Lemma body_return_effect (k : fragment) (v : jsstring)
    (o o' : CssSelector) :
  body k v o = (Return tt, o') →
  field k o' = field k o ++ render k v ∧
  (∀ k', k' ≠ k → field k' o' = field k' o) ∧
  combinator o' = combinator o ∧ supSelector o' = supSelector o ∧
  order o' = <[rank k := 1]> (order o).
Proof.
  intros Hb.
  body_cases k;
    repeat match type of Hb with
           | context [if ?b then _ else _] => destruct b eqn:?
           end; simplify_eq/=;
    repeat match goal with
           | E : strict_neq _ empty = false |- _ =>
               apply strict_neq_false in E; rewrite E
           end;
    split_and!; try done; by intros [].
Qed.

(** X3. When a fragment method returns, it has appended the text of its
    argument to the field of its kind ([element] and [id] return only
    when theirs is empty), written 1 to its cell of [order], and changed
    nothing else: no other field of the builder, no other builder. It
    returns the builder it was called on. *)
Theorem X3_returning_call_appends
    (h h' : heap) (this r : loc) (k : fragment) (v : jsstring)
    (o : CssSelector) :
  h !! this = Some o →
  append k this v h = Some (Return r, h') →
  r = this ∧
  ∃ o', h' = <[this := o']> h ∧
    field k o' = field k o ++ render k v ∧
    (∀ k', k' ≠ k → field k' o' = field k' o) ∧
    combinator o' = combinator o ∧ supSelector o' = supSelector o ∧
    order o' = <[rank k := 1]> (order o).
Proof.
  intros Ho. rewrite append_eq, Ho. simpl.
  destruct (body k v o) as [[[]|e] o'] eqn:Hb; simpl; [|done].
  intros [= <- <-]. split; [done|]. exists o'. split; [done|].
  by apply body_return_effect.
Qed.

Lemma X3_returning_call_appends_witness :
  let o := (body Element (lit "a") fresh).2 in
  ∃ o', [(body Attr (lit "x") o).2] = <[0%nat := o']> [o] ∧
    field Attr o' = field Attr o ++ render Attr (lit "x") ∧
    (∀ k', k' ≠ Attr → field k' o' = field k' o) ∧
    combinator o' = combinator o ∧ supSelector o' = supSelector o ∧
    order o' = <[rank Attr := 1]> (order o).
Proof.
  intros o.
  apply (X3_returning_call_appends [o] [(body Attr (lit "x") o).2] 0 0
           Attr (lit "x") o eq_refl).
  vm_compute. reflexivity.
Defined.

(** ** What no call undoes *)

Lemma appended_record_rank_mono (r r' : nat) (o : CssSelector) :
  appended o r' → appended (record_rank r o) r'.
Proof.
  unfold appended. simpl. intros Hr'.
  destruct (decide (r = r')) as [->|Hne].
  - apply list_lookup_insert_eq. by eapply lookup_lt_Some.
  - by rewrite list_lookup_insert_ne.
Qed.

Lemma body_grows (k : fragment) (v : jsstring) (o : CssSelector) :
  (∀ k', field k' o `prefix_of` field k' (body k v o).2) ∧
  (∀ r, appended o r → appended (body k v o).2 r).
Proof.
  destruct (body k v o) as [[[]|e] o'] eqn:Hb; simpl.
  - destruct (body_return_effect k v o o' Hb) as (Hk & Hother & _ & _ & Ho).
    split.
    + intros k'. destruct (kind_cases k k') as [->|Hne].
      * rewrite Hk. by apply prefix_app_r.
      * by rewrite Hother.
    + intros r Hr. unfold appended. rewrite Ho.
      by apply (appended_record_rank_mono (rank k) r o).
  - assert (o' = o ∨ o' = record_rank 5 o) as [->| ->].
    { body_cases k;
        repeat match type of Hb with
               | context [if ?b then _ else _] => destruct b eqn:?
               end; simplify_eq/=; auto. }
    + done.
    + split; [by intros [] | intros r; apply appended_record_rank_mono].
Qed.

(** X4. No call removes or alters what a builder holds: over any
    sequence of calls on any builders, returning or throwing, each
    fragment field of a builder only grows at its end, and a rank once
    appended stays appended. *)
Theorem X4_fields_only_grow
    (acts : list action) (h h' : heap) (this : loc) (o : CssSelector) :
  run acts h = Some h' →
  h !! this = Some o →
  ∃ o', h' !! this = Some o' ∧
    (∀ k, field k o `prefix_of` field k o') ∧
    (∀ r, appended o r → appended o' r).
Proof.
  intros Hrun Ho.
  apply (run_stable
           (λ o', (∀ k, field k o `prefix_of` field k o') ∧
                  (∀ r, appended o r → appended o' r)))
    with (acts := acts) (h := h) (o := o); try done.
  - intros k v o1 [Hf Ha]. destruct (body_grows k v o1) as [Hf1 Ha1].
    split.
    + intros k'. etrans; [apply Hf | apply Hf1].
    + auto.
  - intros t c o1 [Hf Ha]. split; [|done]. intros []; apply Hf.
Qed.

Lemma X4_fields_only_grow_witness :
  let o := (body Class (lit "a") fresh).2 in
  ∃ o', [(body Class (lit "b") o).2; fresh] !! 0%nat = Some o' ∧
    (∀ k, field k o `prefix_of` field k o') ∧
    (∀ r, appended o r → appended o' r).
Proof.
  intros o.
  apply (X4_fields_only_grow
           [Append 0 Id (lit "x"); New; Append 0 Class (lit "b")] [o]).
  - vm_compute. reflexivity.
  - reflexivity.
Defined.

(** ** [order] as a record of the fields *)

Lemma coherent_wf (o : CssSelector) : coherent o → wf o.
Proof.
  intros (Hlen & _ & Hk). split; [done|].
  intros Hne. by apply (Hk PseudoElement).
Qed.

Lemma coherent_fresh : coherent fresh.
Proof.
  split_and!; [done | by repeat constructor; left |].
  intros k. split; [by destruct k|]. intros _. by destruct k.
Qed.

Lemma coherent_body (k : fragment) (v : jsstring) (o : CssSelector) :
  coherent o → coherent (body k v o).2.
Proof.
  intros Hco. pose proof Hco as (Hlen & Hcells & Hk).
  destruct (body k v o) as [[[]|e] o'] eqn:Hb; simpl.
  - destruct (body_return_effect k v o o' Hb)
      as (Hfk & Hother & _ & _ & Ho).
    unfold coherent, appended. rewrite Ho, length_insert.
    split_and!; [done | apply Forall_insert; auto |].
    intros k'. destruct (kind_cases k k') as [->|Hne].
    + split.
      * intros _. apply list_lookup_insert_eq.
        pose proof (rank_lt k). lia.
      * intros HE _. rewrite Hfk. intros Habs.
        apply app_eq_nil in Habs as [_ Habs].
        by apply (render_nonempty k v).
    + rewrite Hother by done. rewrite list_lookup_insert_ne; [apply Hk|].
      intros Hr. by apply rank_inj in Hr.
  - by rewrite (body_throw_unchanged k v o o' e (coherent_wf o Hco) Hb).
Qed.

Lemma coherent_combine (t c : jsstring) (o : CssSelector) :
  coherent o → coherent (set_combinator c (set_supSelector t o)).
Proof.
  intros (Hlen & Hcells & Hk). split_and!; [done..|].
  intros k. destruct (Hk k) as [H1 H2]. by destruct k.
Qed.

(** X5. On every builder of a reachable store, [order] has its six
    cells, each 0 or 1, and tells which fields are filled: a field that
    is not empty has the cell of its rank at 1, and for every kind but
    [element] (whose argument may be ['']) a cell at 1 means the field
    is not empty. *)
Theorem X5_order_records_the_fields
    (h : heap) (this : loc) (o : CssSelector) :
  reachable h → h !! this = Some o → coherent o.
Proof.
  intros [acts Hrun] Ho.
  eapply Forall_lookup_1; [|exact Ho].
  eapply (run_Forall coherent coherent_body coherent_combine
            coherent_fresh); eauto.
Qed.

Lemma X5_order_records_the_fields_witness :
  coherent (body Element empty (body Id (lit "x") fresh).2).2.
Proof.
  apply (X5_order_records_the_fields
           [(body Element empty (body Id (lit "x") fresh).2).2] 0).
  - exists [New; Append 0 Id (lit "x"); Append 0 Element empty].
    vm_compute. reflexivity.
  - reflexivity.
Defined.

(** ** [pseudoElement] *)

(** X6. On a builder of a reachable store the order test of
    [pseudoElement] never fails: the call returns, whatever was appended
    before, when no pseudo-element is stored, and throws the duplicate
    error, leaving the store as it was, when one is. *)
Theorem X6_pseudoElement_outcome
    (h : heap) (this : loc) (o : CssSelector) (v : jsstring) :
  reachable h → h !! this = Some o →
  append PseudoElement this v h =
  if strict_neq (pseudoElementValue o) empty
  then Some (Throw (Error Body.duplicate_message), h)
  else Some (Return this,
             <[this := set_pseudoElementValue (lit "::" ++ v)
                         (record_rank 5 o)]> h).
Proof.
  intros Hreach Ho.
  assert (wf o) as [Hlen Hpe].
  { eapply Forall_lookup_1; [by apply reachable_wf | done]. }
  rewrite append_eq, Ho. simpl.
  rewrite pseudoElement_eq, order_allowed_last by done.
  destruct (strict_neq (pseudoElementValue o) empty) eqn:E; simpl.
  - apply strict_neq_true in E.
    by rewrite record_rank_id, list_insert_id by auto.
  - apply strict_neq_false in E. by rewrite E.
Qed.

Lemma X6_pseudoElement_outcome_witness :
  let o := (body Id (lit "x") fresh).2 in
  append PseudoElement 0 (lit "after") [o] =
  if strict_neq (pseudoElementValue o) empty
  then Some (Throw (Error Body.duplicate_message), [o])
  else Some (Return 0%nat,
             <[0%nat := set_pseudoElementValue (lit "::" ++ lit "after")
                          (record_rank 5 o)]> [o]).
Proof.
  intros o.
  apply (X6_pseudoElement_outcome [o] 0 o (lit "after")).
  - exists [New; Append 0 Id (lit "x")]. vm_compute. reflexivity.
  - reflexivity.
Defined.

(** ** The chains a new builder goes through *)

Lemma same_kind_true (k k' : fragment) : same_kind k k' = true ↔ k = k'.
Proof.
  unfold same_kind. rewrite Nat.eqb_eq. split; [apply rank_inj|by intros ->].
Qed.

Lemma values_of_app (k : fragment) (l1 l2 : list (fragment * jsstring)) :
  values_of k (l1 ++ l2) = values_of k l1 ++ values_of k l2.
Proof.
  induction l1 as [|[k' v] l1 IH]; simpl; [done|].
  destruct (same_kind k' k); simpl; by rewrite IH.
Qed.

Lemma rendered_app (k : fragment) (vs1 vs2 : list jsstring) :
  rendered k (vs1 ++ vs2) = rendered k vs1 ++ rendered k vs2.
Proof.
  induction vs1 as [|v vs1 IH]; simpl; [done|].
  by rewrite IH, app_assoc.
Qed.

Lemma rendered_snoc (k : fragment) (vs : list jsstring) (v : jsstring) :
  rendered k (vs ++ [v]) = rendered k vs ++ render k v.
Proof.
  rewrite rendered_app. simpl. unfold empty. by rewrite app_nil_r.
Qed.

Lemma values_of_snoc_same (k : fragment) (v : jsstring)
    (l : list (fragment * jsstring)) :
  values_of k (l ++ [(k, v)]) = values_of k l ++ [v].
Proof.
  rewrite values_of_app. simpl.
  by rewrite (proj2 (same_kind_true k k) eq_refl).
Qed.

Lemma values_of_snoc_other (k k' : fragment) (v : jsstring)
    (l : list (fragment * jsstring)) :
  k' ≠ k → values_of k' (l ++ [(k, v)]) = values_of k' l.
Proof.
  intros Hne. rewrite values_of_app. simpl.
  destruct (same_kind k k') eqn:E.
  - apply same_kind_true in E. congruence.
  - apply app_nil_r.
Qed.

Lemma built_fresh : built [] fresh.
Proof.
  split_and!; try done.
  - intros r. split.
    + unfold appended. simpl.
      do 6 (destruct r as [|r]; [done|]). done.
    + intros (c & Hc & _). by apply elem_of_nil in Hc.
  - by intros [].
Qed.

Lemma built_snoc (seen : list (fragment * jsstring)) (k : fragment)
    (v : jsstring) (o o' : CssSelector) :
  built seen o → body k v o = (Return tt, o') →
  built (seen ++ [(k, v)]) o'.
Proof.
  intros (Hlen & Hord & Hfld & Hc & Hs) Hb.
  destruct (body_return_effect k v o o' Hb)
    as (Hfk & Hother & Hc' & Hs' & Ho).
  unfold built, appended. rewrite Ho, length_insert.
  split_and!; try congruence.
  - intros r. destruct (decide (r = rank k)) as [->|Hne].
    + rewrite list_lookup_insert_eq by (pose proof (rank_lt k); lia).
      split; [|done]. intros _. exists (k, v).
      split; [|done]. apply elem_of_app. right. by apply list_elem_of_singleton.
    + rewrite list_lookup_insert_ne by done.
      fold (appended o r). rewrite Hord. split.
      * intros (c & Hin & Hr). exists c. split; [|done].
        apply elem_of_app. by left.
      * intros (c & [Hin| ->%list_elem_of_singleton]%elem_of_app & Hr);
          [eauto | done].
  - intros k'. destruct (kind_cases k k') as [->|Hne].
    + by rewrite Hfk, Hfld, values_of_snoc_same, rendered_snoc.
    + by rewrite Hother, Hfld, values_of_snoc_other.
Qed.

Lemma body_returns_iff (k : fragment) (v : jsstring) (o : CssSelector) :
  (body k v o).1 = Return tt ↔
  (∀ f, unique_field k = Some f → f o = empty) ∧
  order_violated (rank k) o = false.
Proof.
  body_cases k; simpl rank;
    repeat match goal with
           | |- context [if ?b then _ else _] => destruct b eqn:?
           end; simpl; split;
    try (intros [Hu Hv]; try done;
         match goal with
         | E : strict_neq ?x empty = true |- _ =>
             apply strict_neq_true in E; destruct E; by apply Hu
         end);
    try done; intros _; (split; [|done]); intros f [= <-];
    by apply strict_neq_false.
Qed.

Lemma rendered_Element_empty (vs : list jsstring) :
  rendered Element vs = empty ↔
  forallb (λ v, negb (strict_neq v empty)) vs = true.
Proof.
  induction vs as [|v vs IH]; simpl; [done|].
  rewrite andb_true_iff, negb_true_iff, strict_neq_false, <- IH.
  split; [apply app_eq_nil | by intros [-> ->]].
Qed.

Lemma rendered_prefixed_empty (k : fragment) (vs : list jsstring) :
  k ≠ Element → rendered k vs = empty ↔ vs = [].
Proof.
  intros Hk. destruct vs as [|v vs]; simpl; [done|]. split; [|done].
  intros [Habs _]%app_eq_nil. by destruct (render_nonempty k v Hk).
Qed.

Lemma built_unique_ok (seen : list (fragment * jsstring)) (k : fragment)
    (o : CssSelector) :
  built seen o →
  (∀ f, unique_field k = Some f → f o = empty) ↔ unique_ok seen k = true.
Proof.
  intros (_ & _ & Hfld & _).
  assert (k ≠ Element → field k o = empty ↔ values_of k seen = [])
    as Hpre.
  { intros Hk. rewrite Hfld. by apply rendered_prefixed_empty. }
  pose proof (Hfld k) as Hk.
  destruct k; simpl in *;
    try (split; [done | by intros _ f]).
  - rewrite <- rendered_Element_empty, <- Hk.
    split; [intros Hu; by apply Hu | by intros ? f [= <-]].
  - split.
    + intros Hu. specialize (Hu _ eq_refl).
      apply Hpre in Hu; [|done]. by rewrite Hu.
    + intros Hm f [= <-]. apply Hpre; [done|].
      by destruct (values_of Id seen).
  - split.
    + intros Hu. specialize (Hu _ eq_refl).
      apply Hpre in Hu; [|done]. by rewrite Hu.
    + intros Hm f [= <-]. apply Hpre; [done|].
      by destruct (values_of PseudoElement seen).
Qed.

Lemma built_order_ok (seen : list (fragment * jsstring)) (k : fragment)
    (o : CssSelector) :
  built seen o → order_violated (rank k) o = negb (order_ok seen k).
Proof.
  intros (_ & Hord & _).
  destruct (order_ok seen k) eqn:Hok; simpl.
  - apply not_true_is_false.
    intros [[r Hr] Hall]%order_violated_above.
    destruct seen as [|c0 seen].
    { apply Hord in Hr as (c & Hin & _). by apply elem_of_nil in Hin. }
    unfold order_ok in Hok.
    apply existsb_exists in Hok as (c & Hin & Hle).
    apply Nat.leb_le in Hle. apply list_elem_of_In in Hin.
    assert (appended o (rank c.1)) as Hc by (apply Hord; eauto).
    specialize (Hall _ Hc). lia.
  - apply order_violated_above.
    destruct seen as [|c0 seen]; [done|]. split.
    + exists (rank c0.1). apply Hord. exists c0. split; [left|done].
    + intros r (c & Hin & <-)%Hord.
      destruct (Nat.leb_spec (rank c.1) (rank k)) as [Hle|]; [|done].
      exfalso. unfold order_ok in Hok.
      apply not_true_iff_false in Hok. apply Hok.
      apply existsb_exists. exists c. split.
      * by apply list_elem_of_In.
      * by apply Nat.leb_le.
Qed.

Lemma chain_cons_eq (k : fragment) (v : jsstring)
    (cs : list (fragment * jsstring)) (h : heap) (this : loc)
    (o : CssSelector) :
  h !! this = Some o →
  chain this ((k, v) :: cs) h =
  match (body k v o).1 with
  | Return _ => chain this cs (<[this := (body k v o).2]> h)
  | Throw e => Some (Throw e, <[this := (body k v o).2]> h)
  end.
Proof.
  intros Ho. cbn [chain]. unfold hbind. rewrite append_eq, Ho.
  cbn [fmap option_fmap option_map]. by destruct (body k v o).1.
Qed.

Lemma chain_built (cs seen : list (fragment * jsstring))
    (o : CssSelector) (h : heap) (this : loc) :
  h !! this = Some o → built seen o →
  if accepts_after seen cs
  then ∃ o', chain this cs h = Some (Return this, <[this := o']> h) ∧
             built (seen ++ cs) o'
  else ∃ e h', chain this cs h = Some (Throw e, h').
Proof.
  revert seen o h. induction cs as [|[k v] cs IH]; intros seen o h Ho Hb.
  - simpl. exists o. unfold hret.
    by rewrite list_insert_id, app_nil_r.
  - cbn [accepts_after fst]. rewrite (chain_cons_eq k v cs h this o Ho).
    pose proof (body_returns_iff k v o) as Hret.
    rewrite (built_unique_ok seen k o Hb), (built_order_ok seen k o Hb),
      negb_false_iff, <- andb_true_iff in Hret.
    destruct (unique_ok seen k && order_ok seen k).
    + destruct (body k v o) as [[[]|e] o1] eqn:Hbody; simpl in Hret;
        [|discriminate (proj2 Hret eq_refl)].
      cbn [fst snd andb].
      pose proof (built_snoc seen k v o o1 Hb Hbody) as Hb1.
      specialize (IH (seen ++ [(k, v)]) o1 (<[this := o1]> h)).
      rewrite list_lookup_insert_eq in IH by by eapply lookup_lt_Some.
      specialize (IH eq_refl Hb1).
      destruct (accepts_after (seen ++ [(k, v)]) cs).
      * destruct IH as (o' & Hchain & Hb').
        exists o'. rewrite Hchain, list_insert_insert_eq.
        by rewrite <- app_assoc in Hb'.
      * done.
    + destruct (body k v o) as [[[]|e] o1] eqn:Hbody; simpl in Hret;
        [discriminate (proj1 Hret eq_refl)|].
      cbn [fst snd andb]. eauto.
Qed.

(** X7. A chain of fragment calls started on a new builder runs to its
    end exactly when each call finds its own field empty ([element]: all
    earlier [element] arguments were ['']; [id] and [pseudoElement]:
    not called before) and is the first call or has a rank that is not
    below the rank of every earlier call; otherwise the chain throws. *)
Theorem X7_accepted_chains
    (cs : list (fragment * jsstring)) (h : heap) :
  returns ((this <- new ;; chain this cs)%heap h) = accepts cs ∧
  (this <- new ;; chain this cs)%heap h ≠ None.
Proof.
  unfold hbind, new, accepts.
  pose proof (chain_built cs [] fresh (h ++ [fresh]) (length h)) as Hc.
  rewrite lookup_app_r, Nat.sub_diag in Hc by done.
  specialize (Hc eq_refl built_fresh).
  destruct (accepts_after [] cs).
  - destruct Hc as (o' & -> & _). done.
  - destruct Hc as (e & h' & ->). done.
Qed.

(** X8. When a chain of fragment calls started on a new builder runs to
    its end, the builder renders to the texts of the arguments grouped
    by kind in the fixed order element, id, classes, attributes,
    pseudo-classes, pseudo-element, each group in call order, whatever
    the order of the calls was. *)
Theorem X8_rendering_of_a_chain
    (cs : list (fragment * jsstring)) (h h' : heap) (r : loc) :
  (this <- new ;; chain this cs)%heap h = Some (Return r, h') →
  r = length h ∧
  Obj.stringify r h' =
  Some (Return
          (trim (rendered Element (values_of Element cs)
                   ++ rendered Id (values_of Id cs)
                   ++ rendered Class (values_of Class cs)
                   ++ rendered Attr (values_of Attr cs)
                   ++ rendered PseudoClass (values_of PseudoClass cs)
                   ++ rendered PseudoElement (values_of PseudoElement cs)
                   ++ lit " ")), h').
Proof.
  unfold hbind at 1. unfold new.
  pose proof (chain_built cs [] fresh (h ++ [fresh]) (length h)) as Hc.
  rewrite lookup_app_r, Nat.sub_diag in Hc by done.
  specialize (Hc eq_refl built_fresh).
  destruct (accepts_after [] cs).
  - destruct Hc as (o' & -> & (_ & _ & Hfld & Hcomb & _)).
    intros [= <- <-]. split; [done|].
    rewrite stringify_eq, list_lookup_insert_eq
      by (rewrite length_app; simpl; lia).
    simpl. rewrite stringify_text_unlinked by done.
    by rewrite !Hfld.
  - destruct Hc as (e & h1 & ->). done.
Qed.

Lemma X8_rendering_of_a_chain_witness :
  let cs := [(Element, lit "a"); (Class, lit "b"); (Id, lit "c");
             (Class, lit "d")] in
  ∃ h', (this <- new ;; chain this cs)%heap [] = Some (Return 0%nat, h') ∧
        Obj.stringify 0 h' = Some (Return (lit "a#c.b.d"), h').
Proof.
  intros cs. eexists.
  assert ((this <- new ;; chain this cs)%heap [] = Some (Return 0%nat, _))
    as Hrun by (vm_compute; reflexivity).
  split; [exact Hrun|].
  destruct (X8_rendering_of_a_chain cs [] _ 0 Hrun) as [_ ->].
  vm_compute. reflexivity.
Defined.

(** ** Chains in the documented order *)

Lemma accepts_after_sorted (cs seen : list (fragment * jsstring)) :
  (∀ c c', c ∈ seen → c' ∈ cs → (rank c.1 ≤ rank c'.1)%nat) →
  StronglySorted (λ c c', (rank c.1 ≤ rank c'.1)%nat) cs →
  (∀ k, repeatable k = false →
        (length (values_of k (seen ++ cs)) ≤ 1)%nat) →
  accepts_after seen cs = true.
Proof.
  revert seen. induction cs as [|[k v] cs IH]; intros seen Hlow Hs Hu;
    [done|].
  apply StronglySorted_inv in Hs as [Hs Hall].
  cbn [accepts_after fst]. apply andb_true_intro. split.
  - apply andb_true_intro. split.
    + assert (repeatable k = false → values_of k seen = []) as Hnone.
      { intros Hk. specialize (Hu k Hk).
        rewrite values_of_app in Hu. simpl in Hu.
        rewrite (proj2 (same_kind_true k k) eq_refl) in Hu.
        rewrite length_app in Hu. simpl in Hu.
        destruct (values_of k seen); [done | simpl in Hu; lia]. }
      destruct k; simpl; try done; by rewrite Hnone.
    + destruct seen as [|c0 seen]; [done|].
      unfold order_ok. apply existsb_exists. exists c0. split.
      * by left.
      * apply Nat.leb_le. apply (Hlow c0 (k, v)); by left.
  - apply IH; [|done|by rewrite <- app_assoc].
    intros c c' [Hc| ->%list_elem_of_singleton]%elem_of_app Hc'.
    + apply Hlow; [done | by right].
    + rewrite Forall_forall in Hall. by apply Hall.
Qed.

(** X9. A chain of fragment calls in the documented order (ranks never
    decreasing) with at most one [element], one [id] and one
    [pseudoElement] call, started on a new builder, never throws. *)
Theorem X9_ordered_chain_returns
    (cs : list (fragment * jsstring)) (h : heap) :
  StronglySorted (λ c c', (rank c.1 ≤ rank c'.1)%nat) cs →
  (∀ k, repeatable k = false → (length (values_of k cs) ≤ 1)%nat) →
  returns ((this <- new ;; chain this cs)%heap h) = true.
Proof.
  intros Hs Hu. unfold hbind, new.
  pose proof (chain_built cs [] fresh (h ++ [fresh]) (length h)) as Hc.
  rewrite lookup_app_r, Nat.sub_diag in Hc by done.
  specialize (Hc eq_refl built_fresh).
  rewrite accepts_after_sorted in Hc; try done.
  - by destruct Hc as (o' & -> & _).
  - intros c c' Hc'. by apply elem_of_nil in Hc'.
Qed.

Lemma X9_ordered_chain_returns_witness :
  returns ((this <- new ;;
            chain this [(Id, lit "main"); (Class, lit "a");
                        (Class, lit "b"); (PseudoElement, lit "after")])%heap
             []) = true.
Proof.
  apply (X9_ordered_chain_returns
           [(Id, lit "main"); (Class, lit "a"); (Class, lit "b");
            (PseudoElement, lit "after")] []).
  - repeat (constructor; [|repeat constructor; simpl; lia]). constructor.
  - intros []; simpl; intros; try discriminate; lia.
Defined.

(** ** The rendering of a combination *)

Lemma stringify_text_eq (o : CssSelector) :
  Body.stringify_text o =
  trim (if strict_neq (combinator o) empty
           && strict_neq (supSelector o) empty
        then fragments o ++ lit " " ++ combinator o ++ lit " "
               ++ supSelector o
        else fragments o ++ lit " ").
Proof.
  unfold Body.stringify_text, fragments, concat.
  destruct (strict_neq (combinator o) empty && _);
    by rewrite <- !app_assoc.
Qed.

Lemma stringify_text_combined (op text : jsstring) (lo : CssSelector) :
  Body.stringify_text (set_combinator op (set_supSelector text lo)) =
  trim (if strict_neq op empty && strict_neq text empty
        then fragments lo ++ lit " " ++ op ++ lit " " ++ text
        else fragments lo ++ lit " ").
Proof. by rewrite stringify_text_eq. Qed.

(** X10. With a non-empty combinator, a right operand that renders to a
    non-empty text and a left operand whose fragments do not start with
    a white space, [left.combine(right, op).stringify()] is the
    fragments of [left], a space, the combinator, a space and the text
    of [right], with nothing trimmed away. *)
Theorem X10_rendering_of_a_combination
    (h : heap) (left right : loc) (op : jsstring) (lo ro : CssSelector)
    (c : N) :
  h !! left = Some lo →
  h !! right = Some ro →
  op ≠ empty →
  Body.stringify_text ro ≠ empty →
  head (fragments lo) = Some c →
  is_white_space c = false →
  fst <$> (l <- Obj.combine left right op ;; Obj.stringify l)%heap h =
  Some (Return (fragments lo ++ lit " " ++ op ++ lit " "
                  ++ Body.stringify_text ro)).
Proof.
  intros Hl Hr Hop Htext Hhead Hc.
  unfold hbind. rewrite combine_eq, Hr, Hl, stringify_eq.
  rewrite list_lookup_insert_eq by by eapply lookup_lt_Some.
  cbn [fmap option_fmap option_map fst]. do 2 f_equal.
  rewrite stringify_text_combined.
  rewrite (proj2 (strict_neq_true op empty) Hop),
    (proj2 (strict_neq_true _ empty) Htext). cbn [andb].
  apply trim_clean.
  - apply head_Some in Hhead as [s ->]. simpl. by intros ? [= <-].
  - intros d. rewrite !app_assoc, last_app.
    destruct (last (Body.stringify_text ro)) as [d'|] eqn:Hlast.
    + intros [= <-]. revert Hlast. unfold Body.stringify_text.
      apply trim_last.
    + by apply last_None in Hlast.
Qed.

Lemma X10_rendering_of_a_combination_witness :
  let lo := (body Element (lit "tr") fresh).2 in
  let ro := (body Element (lit "td") fresh).2 in
  fst <$> (l <- Obj.combine 0 1 (lit " ") ;; Obj.stringify l)%heap [lo; ro]
  = Some (Return (lit "tr   td")).
Proof.
  intros lo ro.
  apply (X10_rendering_of_a_combination [lo; ro] 0 1 (lit " ") lo ro
           116%N); try reflexivity; vm_compute; congruence.
Defined.

(** X11. With [''] for the combinator, or a right operand that renders
    to [''], [combine] stores its two values all the same but
    [stringify] leaves the combination out: the builder renders to its
    own fragments alone. *)
Theorem X11_empty_combination_is_left_out
    (h : heap) (left right : loc) (op : jsstring) (lo ro : CssSelector) :
  h !! left = Some lo →
  h !! right = Some ro →
  op = empty ∨ Body.stringify_text ro = empty →
  (l <- Obj.combine left right op ;; Obj.stringify l)%heap h =
  Some (Return (trim (fragments lo ++ lit " ")),
        <[left := set_combinator op
                    (set_supSelector (Body.stringify_text ro) lo)]> h).
Proof.
  intros Hl Hr Hempty.
  unfold hbind. rewrite combine_eq, Hr, Hl, stringify_eq.
  rewrite list_lookup_insert_eq by by eapply lookup_lt_Some.
  cbn [fmap option_fmap option_map]. do 3 f_equal.
  rewrite stringify_text_combined.
  destruct Hempty as [-> | ->].
  - by rewrite (proj2 (strict_neq_false empty empty) eq_refl).
  - rewrite (proj2 (strict_neq_false empty empty) eq_refl).
    by rewrite andb_false_r.
Qed.

Lemma X11_empty_combination_is_left_out_witness :
  let lo := (body Element (lit "a") fresh).2 in
  (l <- Obj.combine 0 1 (lit "+") ;; Obj.stringify l)%heap [lo; fresh] =
  Some (Return (trim (fragments lo ++ lit " ")),
        <[0%nat := set_combinator (lit "+")
                     (set_supSelector (Body.stringify_text fresh) lo)]>
          [lo; fresh]).
Proof.
  intros lo.
  apply (X11_empty_combination_is_left_out [lo; fresh] 0 1 (lit "+")
           lo fresh eq_refl eq_refl).
  right. reflexivity.
Defined.

(** ** A chain that throws *)

Lemma chain_throw_prefix (cs : list (fragment * jsstring)) (h h' : heap)
    (this : loc) (e : exn) :
  Forall wf h →
  chain this cs h = Some (Throw e, h') →
  ∃ pre c post,
    cs = pre ++ c :: post ∧
    chain this pre h = Some (Return this, h') ∧
    append c.1 this c.2 h' = Some (Throw e, h').
Proof.
  revert h. induction cs as [|[k v] cs IH]; intros h Hwf Hchain; [done|].
  destruct (h !! this) as [o|] eqn:Ho.
  2:{ cbn [chain] in Hchain. unfold hbind in Hchain.
      rewrite append_eq, Ho in Hchain. done. }
  rewrite (chain_cons_eq k v cs h this o Ho) in Hchain.
  assert (wf o) as Hwo by (eapply Forall_lookup_1; eauto).
  destruct (body k v o) as [[[]|e0] o1] eqn:Hb; simpl in Hchain.
  - destruct (IH (<[this := o1]> h)) as (pre & c & post & -> & Hpre & Hc);
      [|done|].
    { apply Forall_insert; [done|].
      pose proof (wf_body k v o Hwo) as Hw. by rewrite Hb in Hw. }
    exists ((k, v) :: pre), c, post. split_and!; [done| |done].
    by rewrite (chain_cons_eq k v pre h this o Ho), Hb.
  - injection Hchain as <- <-.
    rewrite (body_throw_unchanged k v o o1 e0 Hwo Hb), list_insert_id
      by done.
    exists [], (k, v), cs. split_and!; [done..|].
    rewrite append_eq, Ho. simpl. rewrite Hb. simpl.
    rewrite (body_throw_unchanged k v o o1 e0 Hwo Hb).
    by rewrite list_insert_id.
Qed.

(** X12. Nothing is rolled back when a chain throws: on a builder of a
    reachable store, a chain of fragment calls that throws leaves the
    store exactly as the calls before the throwing one, all returned,
    made it, and the error is the one that call throws there. *)
Theorem X12_throwing_chain_keeps_its_prefix
    (cs : list (fragment * jsstring)) (h h' : heap) (this : loc)
    (e : exn) :
  reachable h →
  chain this cs h = Some (Throw e, h') →
  ∃ pre c post,
    cs = pre ++ c :: post ∧
    chain this pre h = Some (Return this, h') ∧
    append c.1 this c.2 h' = Some (Throw e, h').
Proof.
  intros Hreach. apply chain_throw_prefix. by apply reachable_wf.
Qed.

Lemma X12_throwing_chain_keeps_its_prefix_witness :
  let h' := [(body Class (lit "a") fresh).2] in
  ∃ pre c post,
    [(Class, lit "a"); (Id, lit "b"); (Attr, lit "c")]
      = pre ++ c :: post ∧
    chain 0 pre [fresh] = Some (Return 0%nat, h') ∧
    append c.1 0 c.2 h' = Some (Throw (Error Body.order_message), h').
Proof.
  intros h'.
  apply (X12_throwing_chain_keeps_its_prefix
           [(Class, lit "a"); (Id, lit "b"); (Attr, lit "c")] [fresh] h' 0).
  - by exists [New].
  - vm_compute. reflexivity.
Defined.
